(** * Sight-reading trainer: the progression engine and the pitch detector

    A shallow embedding of the two algorithmic pieces of the trainer,

    - [SRSEngine] (the class of that name: per-note mastery records, the
      unlock cursor, the card selector and the two progression checks), and
    - [PitchDetector] (the autocorrelation estimator with its harmonic
      correction, and the frequency-to-note mapper),

    together with the constants of [config.js] they read and the pure steps
    of the application between a detected note and the engine
    ([getFrequency], the microphone callback's conversion, [isEnharmonic]),
    followed by the properties of the specification that are checked against
    them, and by further properties of the code: what a session keeps
    invariant, when the methods throw, and how they compose.

    Conventions of the embedding.

    - JavaScript numbers that hold counts, levels, streaks and millisecond
      timestamps are integers far below 2^53, where double arithmetic is
      exact; they are modelled as [Z] (or [nat] for the level, which the
      engine keeps in 0..5).
    - An object used as a dictionary ([data.items]) is a [gmap string Item];
      a missing key is JavaScript's [undefined].  A lookup in it, or in one
      of the object literals ([PROGRESSION], [KEY_SIGNATURES], the map of
      [isEnharmonic]), sees the object's own keys only: the names every
      JavaScript object inherits ([constructor], [toString], ...) are no
      clef, key signature or note id of the trainer, and are outside the
      model.
    - A field that old saved data may lack ([streak]) is an [option].
    - [Date.now()] and the successive results of [Math.random()] are inputs:
      a timestamp [now] and an oracle [rand : nat -> Q] giving the k-th draw.
    - A method is a function from the engine to its return value and the
      engine after the call; a method that can raise an exception returns a
      [Result].  [localStorage] is part of the engine state. *)

From Stdlib Require Import ZArith QArith Qround Qabs Qreals Reals Lra Lia Ascii.
From stdpp Require Import gmap strings pretty list.

Local Open Scope Z_scope.

(** ** Control flow of a JavaScript function body *)

Module JS.

(** The exceptions the modelled code can raise: reading a property of
    [undefined], and [new Array(n)] with a negative [n]. *)
Inductive Exception : Type := TypeError | RangeError.

(** How a block ends: it falls through with its local state, it executes
    [return r], or an exception escapes. *)
Inductive Completion (S R : Type) : Type :=
| Continue (s : S)
| Return (r : R)
| Throw (x : Exception).
Arguments Continue {S R} s.
Arguments Return {S R} r.
Arguments Throw {S R} x.

(** What a call gives back to its caller. *)
Inductive Result (A : Type) : Type :=
| Ok (a : A)
| Raise (x : Exception).
Arguments Ok {A} a.
Arguments Raise {A} x.

(** [for (let i = lo; ...; i++) body], unrolled [n] times. *)
Fixpoint for_from {S R : Type} (i : Z) (n : nat)
    (body : Z -> S -> Completion S R) (s : S) : Completion S R :=
  match n with
  | O => Continue s
  | Datatypes.S n' =>
      match body i s with
      | Continue s' => for_from (i + 1) n' body s'
      | Return r => Return r
      | Throw x => Throw x
      end
  end.

(** [for (const x of xs) body] *)
Fixpoint for_of {A S R : Type} (xs : list A)
    (body : A -> S -> Completion S R) (s : S) : Completion S R :=
  match xs with
  | [] => Continue s
  | x :: xs' =>
      match body x s with
      | Continue s' => for_of xs' body s'
      | Return r => Return r
      | Throw x => Throw x
      end
  end.

(** [for (let i = lo; i < hi; i++) body]. *)
Definition for_loop {S R : Type} (lo hi : Z)
    (body : Z -> S -> Completion S R) (s : S) : Completion S R :=
  for_from lo (Z.to_nat (hi - lo)) body s.

(** [x < y] on exact rationals. *)
Definition Qltb (x y : Q) : bool := negb (Qle_bool y x).

(** [a[i]] for an array held as a list: [undefined] out of range. *)
Definition index {A : Type} (a : list A) (i : Z) : option A :=
  if decide (0 <= i) then a !! Z.to_nat i else None.

(** A loop body that starts with [const p = prog[i]] and reads a property
    of [p]: a [TypeError] when [i] is out of range. *)
Definition with_entry {A S R : Type} (prog : list A)
    (step : A -> S -> Completion S R) (i : Z) (s : S) : Completion S R :=
  match index prog i with
  | None => Throw TypeError
  | Some p => step p s
  end.

End JS.
Import JS.

(** ** config.js *)

Module Config.

(** An entry [{n: letter, o: octave}] of a learning path. *)
Record ProgressionNote : Type := { p_n : string; p_o : Z }.

Definition KEY_SIGNATURES (keySig : string) : option (list string) :=
  if decide (keySig = "C") then Some []
  else if decide (keySig = "G") then Some ["F#"]
  else if decide (keySig = "F") then Some ["Bb"]
  else if decide (keySig = "D") then Some ["F#"; "C#"]
  else if decide (keySig = "Bb") then Some ["Bb"; "Eb"]
  else None.

Definition N (n : string) (o : Z) : ProgressionNote := {| p_n := n; p_o := o |}.

Definition PROGRESSION_treble : list ProgressionNote :=
  [ N "C" 4;
    N "D" 4; N "E" 4;
    N "B" 3;
    N "F" 4; N "G" 4;
    N "A" 4; N "B" 4; N "C" 5;
    N "A" 3; N "G" 3;
    N "D" 5; N "E" 5; N "F" 5 ].

Definition PROGRESSION_bass : list ProgressionNote :=
  [ N "C" 3;
    N "B" 2; N "A" 2;
    N "D" 3;
    N "G" 2; N "F" 2;
    N "E" 3; N "F" 3;
    N "E" 2; N "D" 2; N "C" 2 ].

Definition PROGRESSION (clef : string) : option (list ProgressionNote) :=
  if decide (clef = "treble") then Some PROGRESSION_treble
  else if decide (clef = "bass") then Some PROGRESSION_bass
  else None.

(** Minimum consecutive correct answers required per note before
    progression. *)
Definition REQUIRED_STREAK_PER_NOTE : Z := 20.

Definition NOTES : list string :=
  ["C"; "C#"; "D"; "D#"; "E"; "F"; "F#"; "G"; "G#"; "A"; "A#"; "B"].

(** [xs.indexOf(x)]: the first position of [x], or -1. *)
Definition indexOf (xs : list string) (x : string) : Z :=
  match list_find (fun y => y = x) xs with
  | Some (i, _) => Z.of_nat i
  | None => -1
  end.

(** [getFrequency(note, octave)], with [Math.pow] over the reals. *)
Definition getFrequency (note : string) (octave : Z) : R :=
  let noteIndex := indexOf NOTES note in
  let absNote := octave * 12 + noteIndex in
  let absA4 := 4 * 12 + 9 in
  (440 * Rpower 2 (IZR (absNote - absA4) / 12))%R.

End Config.
Import Config.

(** ** The SRS engine *)

Module SRSEngine.

(** Schema of the saved data:
    [items = { id: { level: 0-5, nextReview: timestamp, streak: number } }],
    [unlockedCount] = how many notes of the progression are active,
    [recentAttempts] = the recent results. *)
Record Item : Type := { level : nat; nextReview : Z; streak : option Z }.

Record Stats : Type := { stats_streak : Z; stats_total : Z; stats_correct : Z }.

Record Data : Type := {
  items : gmap string Item;
  unlockedCount : Z;
  stats : Stats;
  recentAttempts : list bool
}.

(** The engine object: [this.data], and the entry of [localStorage] under
    the key [sightread_srs_data_v3] (JSON text, held here as the value it
    parses to). *)
Record Engine : Type := { data : Data; localStorage : option Data }.

Record Card : Type := {
  card_clef : string;
  card_keySig : string;
  card_note : string;
  card_octave : Z;
  card_accidental : option string;
  card_id : string
}.

Definition set_items (f : gmap string Item -> gmap string Item) (d : Data) : Data :=
  {| items := f (items d); unlockedCount := unlockedCount d;
     stats := stats d; recentAttempts := recentAttempts d |}.

Definition set_unlockedCount (n : Z) (d : Data) : Data :=
  {| items := items d; unlockedCount := n;
     stats := stats d; recentAttempts := recentAttempts d |}.

Definition set_data (f : Data -> Data) (e : Engine) : Engine :=
  {| data := f (data e); localStorage := localStorage e |}.

(** [item.streak || 0] *)
Definition streak_or_0 (it : Item) : Z := default 0 (streak it).

(** [if (item.streak === undefined) item.streak = 0] *)
Definition ensure_streak (it : Item) : Item :=
  match streak it with
  | Some _ => it
  | None => {| level := level it; nextReview := nextReview it; streak := Some 0 |}
  end.

Definition initialData : Data :=
  {| items := ∅;
     unlockedCount := 3;
     stats := {| stats_streak := 0; stats_total := 0; stats_correct := 0 |};
     recentAttempts := [] |}.

(** [loadData()], from the content of the store. *)
Definition loadData (saved : option Data) : Engine :=
  let d := match saved with Some d => d | None => initialData end in
  {| data := set_items (fmap ensure_streak) d; localStorage := saved |}.

(** [new SRSEngine()] *)
Definition constructor (saved : option Data) : Engine := loadData saved.

Definition saveData (e : Engine) : Engine :=
  {| data := data e; localStorage := Some (data e) |}.

Definition resetData (e : Engine) : Engine := loadData None.

(** [`${clef}-${note}${octave}`] *)
Definition getKey (clef note : string) (octave : Z) : string :=
  clef +:+ "-" +:+ note +:+ pretty octave.

(** [PROGRESSION[clef] || PROGRESSION['treble']] *)
Definition progression (clef : string) : list ProgressionNote :=
  match PROGRESSION clef with
  | Some prog => prog
  | None => PROGRESSION_treble
  end.

(** *** checkProgression *)

(** Loop state: the engine, [notesReady], [totalUnlocked]. *)
Definition checkProgression_step (clef : string) (p : ProgressionNote)
    (s : Engine * Z * Z) : Completion (Engine * Z * Z) (bool * Engine) :=
  let '(e, notesReady, totalUnlocked) := s in
  let id := getKey clef (p_n p) (p_o p) in
  let totalUnlocked := totalUnlocked + 1 in
  match items (data e) !! id with
  | None => Return (false, e)
  | Some item =>
      let item := ensure_streak item in
      let e := set_data (set_items (insert id item)) e in
      if decide (REQUIRED_STREAK_PER_NOTE <= streak_or_0 item)
      then Continue (e, notesReady + 1, totalUnlocked)
      else Continue (e, notesReady, totalUnlocked)
  end.

Definition checkProgression_body (clef : string) (prog : list ProgressionNote)
    : Z -> Engine * Z * Z -> Completion (Engine * Z * Z) (bool * Engine) :=
  with_entry prog (checkProgression_step clef).

Definition checkProgression (clef : string) (e : Engine) : Result (bool * Engine) :=
  let prog := progression clef in
  let max := Z.of_nat (length prog) in
  let currentUnlocked := unlockedCount (data e) in
  if decide (max <= currentUnlocked) then Ok (false, e)
  else
    match for_loop 0 currentUnlocked (checkProgression_body clef prog) (e, 0, 0) with
    | Throw x => Raise x
    | Return r => Ok r
    | Continue (e, notesReady, totalUnlocked) =>
        if decide (0 < totalUnlocked /\ notesReady = totalUnlocked)
        then
          let e := set_data (set_unlockedCount (unlockedCount (data e) + 1)) e in
          Ok (true, saveData e)
        else Ok (false, e)
    end.

(** *** checkRegression *)

(** Loop state: [notesWithLowStreak], [totalUnlocked]. *)
Definition checkRegression_step (clef : string) (e : Engine)
    (p : ProgressionNote) (s : Z * Z) : Completion (Z * Z) (bool * Engine) :=
  let '(notesWithLowStreak, totalUnlocked) := s in
  let id := getKey clef (p_n p) (p_o p) in
  let totalUnlocked := totalUnlocked + 1 in
  match items (data e) !! id with
  | Some item =>
      if decide (streak_or_0 item < REQUIRED_STREAK_PER_NOTE)
      then Continue (notesWithLowStreak + 1, totalUnlocked)
      else Continue (notesWithLowStreak, totalUnlocked)
  | None => Continue (notesWithLowStreak + 1, totalUnlocked)
  end.

Definition checkRegression_body (clef : string) (prog : list ProgressionNote)
    (e : Engine) : Z -> Z * Z -> Completion (Z * Z) (bool * Engine) :=
  with_entry prog (checkRegression_step clef e).

Definition checkRegression (clef : string) (e : Engine) : Result (bool * Engine) :=
  let prog := progression clef in
  let currentUnlocked := unlockedCount (data e) in
  if decide (currentUnlocked <= 3) then Ok (false, e)
  else
    match for_loop 0 currentUnlocked (checkRegression_body clef prog e) (0, 0) with
    | Throw x => Raise x
    | Return r => Ok r
    | Continue (notesWithLowStreak, totalUnlocked) =>
        let lowStreakRatio : Q :=
          if decide (0 < totalUnlocked)
          then (inject_Z notesWithLowStreak / inject_Z totalUnlocked)%Q
          else 0%Q in
        if bool_decide (0 < totalUnlocked) && Qltb 0.5 lowStreakRatio
        then
          let e := set_data (set_unlockedCount (Z.max 3 (currentUnlocked - 1))) e in
          Ok (true, saveData e)
        else Ok (false, e)
    end.

(** *** generateCard *)

(** The accidental a key signature forces on a note letter: the
    [sigNotes.forEach] of the loop body. *)
Definition accidental_for (sigNotes : list string) (note : string) : option string :=
  foldl (fun accidental mod' =>
           if String.prefix note mod'
           then if decide (1 < String.length mod')%nat
                then Some (String.substring 1 (String.length mod' - 1) mod')
                else accidental
           else accidental)
        None sigNotes.

Definition make_card (clef keySig : string) (sigNotes : list string)
    (p : ProgressionNote) : Card :=
  {| card_clef := clef; card_keySig := keySig;
     card_note := p_n p; card_octave := p_o p;
     card_accidental := accidental_for sigNotes (p_n p);
     card_id := getKey clef (p_n p) (p_o p) |}.

(** The local arrays of [generateCard], and the engine whose items the
    loop touches. *)
Record Pools : Type := {
  pool_engine : Engine;
  candidates : list Card;
  dueItems : list Card;
  newItems : list Card;
  strugglingItems : list Card
}.

Definition generateCard_step (clef keySig : string) (now : Z)
    (p : ProgressionNote) (s : Pools)
    : Completion Pools (option Card * Engine) :=
  let id := getKey clef (p_n p) (p_o p) in
  let e := pool_engine s in
  let item := items (data e) !! id in
  match KEY_SIGNATURES keySig with
  | None => Throw TypeError
  | Some sigNotes =>
      let card := make_card clef keySig sigNotes p in
      match item with
      | None =>
          Continue {| pool_engine := e;
                      candidates := candidates s;
                      dueItems := dueItems s;
                      newItems := newItems s ++ [card];
                      strugglingItems := strugglingItems s |}
      | Some item =>
          let item := ensure_streak item in
          let e := set_data (set_items (insert id item)) e in
          let dueItems :=
            if decide (nextReview item <= now)
            then dueItems s ++ [card] else dueItems s in
          let strugglingItems :=
            if bool_decide (level item = 0%nat)
               || bool_decide (streak_or_0 item < REQUIRED_STREAK_PER_NOTE)
            then strugglingItems s ++ [card] else strugglingItems s in
          Continue {| pool_engine := e;
                      candidates := candidates s ++ [card];
                      dueItems := dueItems;
                      newItems := newItems s;
                      strugglingItems := strugglingItems |}
      end
  end.

Definition generateCard_body (clef keySig : string) (now : Z)
    (prog : list ProgressionNote)
    : Z -> Pools -> Completion Pools (option Card * Engine) :=
  with_entry prog (generateCard_step clef keySig now).

(** [arr[Math.floor(r * arr.length)]] *)
Definition pick (r : Q) (arr : list Card) : option Card :=
  index arr (Qfloor (r * inject_Z (Z.of_nat (length arr)))).

Definition fallback_card (clef keySig : string) : Card :=
  {| card_clef := clef; card_keySig := keySig;
     card_note := "C"; card_octave := 4;
     card_accidental := None; card_id := "fallback" |}.

(** The selection strategy on the pools; [rand k] is the result of the
    k-th call of [Math.random()] made by this call of [generateCard]. *)
Definition select_card (clef keySig : string) (rand : nat -> Q) (s : Pools)
    : option Card :=
  let k := 0%nat in
  let '(takeStruggling, k) :=
    match strugglingItems s with
    | [] => (false, k)
    | _ => (Qltb (rand k) 0.4, Datatypes.S k)
    end in
  if takeStruggling then pick (rand k) (strugglingItems s)
  else
    let '(takeNew, k) :=
      match newItems s with
      | [] => (false, k)
      | _ => (Qltb (rand k) 0.3, Datatypes.S k)
      end in
    if takeNew then index (newItems s) 0
    else
      match dueItems s with
      | _ :: _ => pick (rand k) (dueItems s)
      | [] =>
          match candidates s with
          | _ :: _ => pick (rand k) (candidates s)
          | [] => Some (fallback_card clef keySig)
          end
      end.

Definition generateCard (clef keySig : string) (now : Z) (rand : nat -> Q)
    (e : Engine) : Result (option Card * Engine) :=
  let prog := progression clef in
  let limit := Z.min (unlockedCount (data e)) (Z.of_nat (length prog)) in
  let pools0 :=
    {| pool_engine := e; candidates := []; dueItems := [];
       newItems := []; strugglingItems := [] |} in
  match for_loop 0 limit (generateCard_body clef keySig now prog) pools0 with
  | Throw x => Raise x
  | Return r => Ok r
  | Continue s => Ok (select_card clef keySig rand s, pool_engine s)
  end.

(** *** recordResult *)

Definition intervals : list Z := [1; 5; 30; 120; 720; 2880].

Definition new_item : Item := {| level := 0; nextReview := 0; streak := Some 0 |}.

Definition recordResult (cardId : string) (isCorrect : bool) (timeDelta now : Z)
    (e : Engine) : string * Engine :=
  let d := data e in
  let item := ensure_streak (default new_item (items d !! cardId)) in
  let recent := recentAttempts d ++ [isCorrect] in
  let recent := if decide (50 < length recent)%nat then tail recent else recent in
  let isFast := bool_decide (timeDelta <= 2500) in
  let st := stats d in
  let '(feedbackType, item, st_streak, st_correct) :=
    if isCorrect then
      let newStreak := streak_or_0 item + 1 in
      if isFast then
        let lvl := Nat.min (level item + 1) (length intervals - 1) in
        ("correct",
         {| level := lvl;
            nextReview := now + (intervals !!! lvl) * 60 * 1000;
            streak := Some newStreak |},
         stats_streak st + 1, stats_correct st + 1)
      else
        ("slow",
         {| level := Nat.max 0 (Nat.min (level item) 2);
            nextReview := now + 3 * 60 * 1000;
            streak := Some newStreak |},
         stats_streak st + 1, stats_correct st + 1)
    else
      ("wrong",
       {| level := 0; nextReview := now + 1 * 60 * 1000; streak := Some 0 |},
       0, stats_correct st) in
  let d :=
    {| items := <[cardId := item]> (items d);
       unlockedCount := unlockedCount d;
       stats := {| stats_streak := st_streak;
                   stats_total := stats_total st + 1;
                   stats_correct := st_correct |};
       recentAttempts := recent |} in
  (feedbackType, saveData {| data := d; localStorage := localStorage e |}).

(** The mastery record of a note, as [recordResult] sees it. *)
Definition getItem (cardId : string) (e : Engine) : option Item :=
  items (data e) !! cardId.

(** *** getStats *)

(** The object [getStats] returns. *)
Record StatsView : Type := {
  view_unlocked : Z;
  view_streak : Z;
  view_totalNotes : Z;
  view_notesReady : Z;
  view_requiredStreak : Z
}.

(** The body of the loop of [getStats]; [Return] is its [break]. *)
Definition getStats_body (e : Engine) (i : Z) (notesReady : Z) : Completion Z Z :=
  match index PROGRESSION_treble i with
  | None => Return notesReady
  | Some p =>
      let id := getKey "treble" (p_n p) (p_o p) in
      match items (data e) !! id with
      | Some item =>
          if decide (REQUIRED_STREAK_PER_NOTE <= streak_or_0 item)
          then Continue (notesReady + 1)
          else Continue notesReady
      | None => Continue notesReady
      end
  end.

(** [getStats()]; the loop runs while [i < unlocked && i < prog.length]. *)
Definition getStats (e : Engine) : Result StatsView :=
  let prog := PROGRESSION_treble in
  let unlocked := unlockedCount (data e) in
  let view (notesReady : Z) : StatsView :=
    {| view_unlocked := unlocked;
       view_streak := stats_streak (stats (data e));
       view_totalNotes := Z.of_nat (length prog);
       view_notesReady := notesReady;
       view_requiredStreak := REQUIRED_STREAK_PER_NOTE |} in
  match for_loop 0 (Z.min unlocked (Z.of_nat (length prog))) (getStats_body e) 0 with
  | Continue notesReady => Ok (view notesReady)
  | Return notesReady => Ok (view notesReady)
  | Throw x => Raise x
  end.

End SRSEngine.

(** ** The pitch detector

    [pitch-detector.js] in its latest revision: the estimator searches the
    lags of 60 to 500 Hz on the normalized buffer, and
    [findFundamentalFrequency] takes the correlation of the detected peak as
    its fifth argument and rejects what is outside the expected band.

    The estimator works on samples and frequencies, which are JavaScript
    doubles.  They are modelled as exact rationals [Q]: every comparison,
    sum, product and quotient of the source is the exact one, so rounding
    error, [NaN] and the infinities are outside the model.  Where the source
    would produce [NaN] or an infinity from finite inputs (a division by
    zero, a read of an array hole) the model says what the source does with
    it.  The normalized buffer, a [Float32Array] in the source, keeps the
    exact quotients.  [Math.log2] is taken over the reals. *)

Module PitchDetector.

Local Open Scope Q_scope.

Definition Math_floor (x : Q) : Z := Qfloor x.

(** [Math.round]: the nearest integer, halves upwards. *)
Definition Math_round (x : Q) : Z := Qfloor (x + (1 # 2)).

Definition Math_abs (x : Q) : Q := Qabs x.

(** [Math.sqrt(x) < t] for [0 <= x] and [0 < t], decided on the squares
    ([sqrt_lt_correct] below relates it to the real square root). *)
Definition sqrt_lt (x t : Q) : bool := Qltb x (t * t).

(** [new Array(n)]: [n] holes. *)
Definition new_Array (n : Z) : Result (list (option Q)) :=
  if decide (n < 0)%Z then Raise RangeError
  else Ok (replicate (Z.to_nat n) None).

(** [a[i]], where a hole reads as [undefined]. *)
Definition array_get (a : list (option Q)) (i : Z) : option Q :=
  match index a i with
  | Some (Some v) => Some v
  | _ => None
  end.

(** [a[i] = v]; an index past the end extends the array with holes. *)
Definition array_set (a : list (option Q)) (i : Z) (v : Q) : list (option Q) :=
  if decide (i < 0)%Z then a
  else if decide (Z.to_nat i < length a)%nat then <[Z.to_nat i := Some v]> a
  else a ++ replicate (Z.to_nat i - length a) None ++ [Some v].

Definition expectedRange_min : Q := 60.
Definition expectedRange_max : Q := 400.
Definition harmonics : list Z := [2; 3; 4; 5; 6]%Z.

(** One turn of the loop over [harmonics]; the state is
    [(bestFundamental, bestFundamentalCorrelation)]. *)
Definition findFundamentalFrequency_step (detectedFreq : Q)
    (correlations : list (option Q)) (sampleRate : Q) (minSamples : Z)
    (best : Q * Q) (harmonic : Z) : Q * Q :=
  let '(bestFundamental, bestFundamentalCorrelation) := best in
  let candidateFundamental := detectedFreq / inject_Z harmonic in
  if Qltb candidateFundamental expectedRange_min
     || Qltb expectedRange_max candidateFundamental
  then best
  else
    let candidateOffset := Math_round (sampleRate / candidateFundamental) in
    if bool_decide (minSamples <= candidateOffset)%Z
       && bool_decide (candidateOffset < Z.of_nat (length correlations))%Z
    then
      match array_get correlations candidateOffset with
      | Some candidateCorrelation =>
          if Qltb (bestFundamentalCorrelation * 0.7) candidateCorrelation
          then
            if Qltb candidateFundamental bestFundamental
            then (candidateFundamental, candidateCorrelation)
            else best
          else best
      | None => best
      end
    else best.

Definition findFundamentalFrequency (detectedFreq : Q)
    (correlations : list (option Q)) (sampleRate : Q) (minSamples : Z)
    (detectedCorrelation : Q) : Q :=
  if Qltb 450 detectedFreq then -1
  else
    let '(bestFundamental, bestFundamentalCorrelation) :=
      foldl (findFundamentalFrequency_step detectedFreq correlations
               sampleRate minSamples)
            (detectedFreq, detectedCorrelation) harmonics in
    if Qltb bestFundamental detectedFreq && Qltb 0.3 bestFundamentalCorrelation
    then bestFundamental
    else if Qltb detectedFreq expectedRange_min
            || Qltb expectedRange_max detectedFreq
    then -1
    else detectedFreq.

Record Peak : Type := { peak_offset : Z; peak_correlation : Q; peak_frequency : Q }.

(** [peaks.sort((a, b) => a.frequency - b.frequency)]: ascending in
    frequency, stable. *)
Fixpoint sort_insert (p : Peak) (ps : list Peak) : list Peak :=
  match ps with
  | [] => [p]
  | q :: ps' =>
      if Qltb (peak_frequency p) (peak_frequency q) then p :: ps
      else q :: sort_insert p ps'
  end.

Definition sort_peaks (ps : list Peak) : list Peak :=
  foldl (fun sorted p => sort_insert p sorted) [] ps.

(** The local variables the main loop of [autocorrelate] updates. *)
Record Scan : Type := {
  bestOffset : Z;
  bestCorrelation : Q;
  foundGoodCorrelation : bool;
  correlations : list (option Q);
  lastCorrelation : Q
}.

Definition GOOD_ENOUGH_CORRELATION : Q := 0.60.

(** The correlation of the normalized buffer with itself shifted by
    [offset]: the inner loop over [i < SIZE - offset]. *)
Definition correlation_at (normalizedBuffer : list Q) (offset : Z) : Q :=
  let pairs := zip normalizedBuffer (drop (Z.to_nat offset) normalizedBuffer) in
  let correlation := foldl (fun acc xy => acc + fst xy * snd xy) 0 pairs in
  let count := Z.of_nat (length pairs) in
  if decide (0 < count)%Z then correlation / inject_Z count else correlation.

Definition autocorrelate_body (normalizedBuffer : list Q) (sampleRate : Q)
    (MIN_SAMPLES ACTUAL_MAX_SAMPLES : Z) (offset : Z) (s : Scan)
    : Completion Scan Q :=
  let correlation := correlation_at normalizedBuffer offset in
  let correlations := array_set (correlations s) offset correlation in
  let '(bestCorrelation, bestOffset) :=
    if Qltb (bestCorrelation s) correlation
    then (correlation, offset)
    else (bestCorrelation s, bestOffset s) in
  let next (found : bool) : Completion Scan Q :=
    Continue {| bestOffset := bestOffset; bestCorrelation := bestCorrelation;
                foundGoodCorrelation := found; correlations := correlations;
                lastCorrelation := correlation |} in
  if Qltb GOOD_ENOUGH_CORRELATION correlation
     && Qltb (lastCorrelation s) correlation
  then next true
  else if foundGoodCorrelation s && Qltb correlation (bestCorrelation * 0.9)
  then
    if bool_decide (0 < bestOffset)%Z
       && bool_decide (bestOffset < ACTUAL_MAX_SAMPLES - 1)%Z
       && bool_decide (MIN_SAMPLES < bestOffset)%Z
    then
      match array_get correlations (bestOffset + 1),
            array_get correlations (bestOffset - 1),
            array_get correlations bestOffset with
      | Some c_next, Some c_prev, Some c_best =>
          let shift := (c_next - c_prev) / (2 * c_best) in
          if Qeq_bool (2 * c_best) 0 || Qeq_bool (inject_Z bestOffset + shift) 0
          then (* a quotient by zero: shift or frequency is an infinity or
                  NaN, which findFundamentalFrequency never turns into a
                  value > 0 *)
            next (foundGoodCorrelation s)
          else
            let frequency := sampleRate / (inject_Z bestOffset + shift) in
            let fundamental :=
              findFundamentalFrequency frequency correlations sampleRate
                MIN_SAMPLES bestCorrelation in
            if Qltb 0 fundamental then Return fundamental
            else next (foundGoodCorrelation s)
      | _, _, _ =>
          (* a hole makes shift NaN, and NaN > 0 is false *)
          next (foundGoodCorrelation s)
      end
    else next (foundGoodCorrelation s)
  else next (foundGoodCorrelation s).

(** The second loop: local maxima of the stored correlations. *)
Definition peaks_body (correlations : list (option Q)) (sampleRate : Q)
    (offset : Z) (peaks : list Peak) : Completion (list Peak) Q :=
  match array_get correlations offset,
        array_get correlations (offset - 1),
        array_get correlations (offset + 1),
        array_get correlations (offset - 2),
        array_get correlations (offset + 2) with
  | Some correlation, Some c_m1, Some c_p1, Some c_m2, Some c_p2 =>
      if Qltb 0.3 correlation
         && Qltb c_m1 correlation && Qltb c_p1 correlation
         && Qltb (c_m2 * 0.9) correlation && Qltb (c_p2 * 0.9) correlation
      then Continue (peaks ++ [{| peak_offset := offset;
                                  peak_correlation := correlation;
                                  peak_frequency := sampleRate / inject_Z offset |}])
      else Continue peaks
  | _, _, _, _, _ => Continue peaks
  end.

(** The loop over the sorted peaks: is the best peak a harmonic of a
    lower one? *)
Definition lowerPeak_body (frequency : Q) (correlations : list (option Q))
    (sampleRate : Q) (MIN_SAMPLES : Z) (bestCorrelation : Q)
    (lowerPeak : Peak) (s : unit) : Completion unit Q :=
  let fundamental :=
    findFundamentalFrequency frequency correlations sampleRate MIN_SAMPLES
      bestCorrelation in
  if Qle_bool 60 (peak_frequency lowerPeak)
     && Qle_bool (peak_frequency lowerPeak) 400
  then
    let ratio := frequency / peak_frequency lowerPeak in
    if Qltb 1.8 ratio && Qltb ratio 2.2 then
      if Qltb (bestCorrelation * 0.6) (peak_correlation lowerPeak)
      then if Qltb 0 fundamental then Return fundamental else Continue tt
      else Continue tt
    else if Qltb 2.8 ratio && Qltb ratio 3.2 then
      if Qltb (bestCorrelation * 0.5) (peak_correlation lowerPeak)
      then if Qltb 0 fundamental then Return fundamental else Continue tt
      else Continue tt
    else Continue tt
  else Continue tt.

Definition autocorrelate (buffer : list Q) (sampleRate : Q) : Result Q :=
  let MIN_FREQUENCY : Q := 60 in
  let MAX_FREQUENCY : Q := 500 in
  let MIN_SAMPLES := Math_floor (sampleRate / MAX_FREQUENCY) in
  let MAX_SAMPLES := Math_floor (sampleRate / MIN_FREQUENCY) in
  let SIZE := Z.of_nat (length buffer) in
  let ACTUAL_MAX_SAMPLES :=
    Z.min MAX_SAMPLES (Math_floor (inject_Z SIZE / 2)) in
  match new_Array ACTUAL_MAX_SAMPLES with
  | Raise x => Raise x
  | Ok correlations0 =>
      let rms := foldl (fun rms val => rms + val * val) 0 buffer in
      (* an empty buffer makes rms NaN, and NaN < 0.005 is false *)
      if bool_decide (SIZE <> 0%Z) && sqrt_lt (rms / inject_Z SIZE) 0.005
      then Ok (-1)
      else
        let maxVal :=
          foldl (fun maxVal x =>
                   if Qltb maxVal (Math_abs x) then Math_abs x else maxVal)
                0 buffer in
        if Qeq_bool maxVal 0 then Ok (-1)
        else
          let normalizedBuffer := map (fun x => x / maxVal) buffer in
          let scan0 :=
            {| bestOffset := -1; bestCorrelation := 0;
               foundGoodCorrelation := false;
               correlations := correlations0; lastCorrelation := 1 |} in
          match for_loop MIN_SAMPLES ACTUAL_MAX_SAMPLES
                  (autocorrelate_body normalizedBuffer sampleRate
                     MIN_SAMPLES ACTUAL_MAX_SAMPLES) scan0 with
          | Throw x => Raise x
          | Return r => Ok r
          | Continue s =>
              match for_loop (MIN_SAMPLES + 2) (ACTUAL_MAX_SAMPLES - 2)
                      (peaks_body (correlations s) sampleRate) [] with
              | Throw x => Raise x
              | Return r => Ok r
              | Continue peaks =>
                  if Qltb 0.001 (bestCorrelation s)
                     && bool_decide (0 < bestOffset s)%Z
                     && bool_decide (MIN_SAMPLES <= bestOffset s)%Z
                  then
                    let frequency := sampleRate / inject_Z (bestOffset s) in
                    let peaks := sort_peaks peaks in
                    match for_of peaks
                            (lowerPeak_body frequency (correlations s) sampleRate
                               MIN_SAMPLES (bestCorrelation s)) tt with
                    | Throw x => Raise x
                    | Return r => Ok r
                    | Continue _ =>
                        let fundamental :=
                          findFundamentalFrequency frequency (correlations s)
                            sampleRate MIN_SAMPLES (bestCorrelation s) in
                        if Qltb 0 fundamental
                           && negb (Qeq_bool fundamental frequency)
                        then Ok fundamental
                        else if Qltb fundamental 0 then Ok (-1)
                        else Ok frequency
                    end
                  else Ok (-1)
              end
          end
  end.

(** *** frequencyToNote *)

Record Note : Type := {
  note : string;
  octave : Z;
  frequency : Q;
  accidental : option string
}.

Definition noteNames : list string :=
  ["C"; "C#"; "D"; "D#"; "E"; "F"; "F#"; "G"; "G#"; "A"; "A#"; "B"].

(** [s.includes(t)] *)
Definition includes (s t : string) : bool :=
  match String.index 0 t s with Some _ => true | None => false end.

(** [Math.log2], on the reals. *)
Definition Math_log2 (x : R) : R := (ln x / ln 2)%R.

(** [Math.round] of a real: the integer part of [x + 1/2]. *)
Definition Math_round_R (x : R) : Z := Int_part (x + / 2)%R.

Definition A4 : Q := 440.

(** [Math.round(12 * Math.log2(frequency / A4))] *)
Definition roundedSemitones (frequency : Q) : Z :=
  Math_round_R (12 * Math_log2 (Q2R (frequency / A4)))%R.

Definition frequencyToNote (frequency : Q) : option Note :=
  if Qle_bool frequency 0 then None
  else
    let roundedSemitones := roundedSemitones frequency in
    let A4_semitonesFromC0 := (4 * 12 + 9)%Z in
    let noteNumberFromC0 := (A4_semitonesFromC0 + roundedSemitones)%Z in
    let octave := (noteNumberFromC0 / 12)%Z in
    let noteIndex := Z.rem (Z.rem noteNumberFromC0 12 + 12) 12 in
    let noteName := noteNames !!! Z.to_nat noteIndex in
    Some {| note := noteName;
            octave := octave;
            frequency := frequency;
            accidental := if includes noteName "#" then Some "#" else None |}.

(** *** detectPitch *)

(** One frame of the polling loop.  The inputs are the [isListening] flag,
    whether a callback [onNoteDetected] is set, the samples the analyser
    writes into [dataArray] and the sample rate of the audio context; the
    result is the call of the callback this frame makes, if any, and whether
    the next animation frame is requested. *)
Definition detectPitch (isListening onNoteDetected : bool)
    (dataArray : list Q) (sampleRate : Q)
    : Result (option (Note * Q) * bool) :=
  if negb isListening then Ok (None, false)
  else
    match autocorrelate dataArray sampleRate with
    | Raise x => Raise x
    | Ok pitch =>
        let call :=
          if Qltb 0 pitch then
            match frequencyToNote pitch with
            | Some note => if onNoteDetected then Some (note, pitch) else None
            | None => None
            end
          else None in
        Ok (call, true)
    end.

End PitchDetector.

(** ** The first revision of the note mapper

    [frequencyToNote] as [pitch-detector.js] first had it (the revision
    without harmonic correction, and the one after it): the same function
    with another octave formula. *)

Module PitchDetectorRev1.

Import PitchDetector.

Definition frequencyToNote (frequency : Q) : option Note :=
  if Qle_bool frequency 0 then None
  else
    let noteNumber := (roundedSemitones frequency + 9)%Z in
    let octave := (4 + (noteNumber + 9) / 12)%Z in
    let noteIndex := Z.rem (Z.rem noteNumber 12 + 12) 12 in
    let noteName := noteNames !!! Z.to_nat noteIndex in
    Some {| note := noteName;
            octave := octave;
            frequency := frequency;
            accidental := if includes noteName "#" then Some "#" else None |}.

End PitchDetectorRev1.

(** ** The application: judging an answer

    The pure steps between a detected or clicked note and [recordResult]:
    the conversion of a detected note in the microphone callback, and the
    comparison [isEnharmonic] of [handleInput]. *)

Module App.

(** [s.replace('#', '')]: the string without its first [#]. *)
Fixpoint remove_first_sharp (s : string) : string :=
  match s with
  | EmptyString => EmptyString
  | String c s' =>
      if Ascii.eqb c "#"%char then s' else String c (remove_first_sharp s')
  end.

(** The microphone callback's [noteName] and [accidental] for a detected
    note name. *)
Definition detected_input (note : string) : string * option string :=
  (remove_first_sharp note,
   if PitchDetector.includes note "#" then Some "#" else None).

(** The object [map] of [isEnharmonic]. *)
Definition enharmonic_map (i : string) : option string :=
  if decide (i = "C#") then Some "Db"
  else if decide (i = "D#") then Some "Eb"
  else if decide (i = "F#") then Some "Gb"
  else if decide (i = "G#") then Some "Ab"
  else if decide (i = "A#") then Some "Bb"
  else None.

(** [n + (a || '')] *)
Definition spelled (n : string) (a : option string) : string :=
  n +:+ default "" a.

Definition isEnharmonic (n1 : string) (a1 : option string)
    (n2 : string) (a2 : option string) : bool :=
  let i1 := spelled n1 a1 in
  let i2 := spelled n2 a2 in
  if decide (i1 = i2) then true
  else if decide (enharmonic_map i1 = Some i2) then true
  else if decide (enharmonic_map i2 = Some i1) then true
  else false.

End App.

(** ** The vocabulary of the specification *)

Module Spec.

Import SRSEngine.

(** The mastery record of a curriculum entry, if the note was ever
    attempted. *)
Definition record_of (clef : string) (e : Engine) (p : ProgressionNote)
    : option Item :=
  items (data e) !! getKey clef (p_n p) (p_o p).

(** The currently unlocked prefix of a clef's curriculum. *)
Definition unlocked_prefix (clef : string) (e : Engine) : list ProgressionNote :=
  take (Z.to_nat (unlockedCount (data e))) (progression clef).

(** A record is present with [streak >= requiredStreak]. *)
Definition mastered (clef : string) (e : Engine) (p : ProgressionNote) : bool :=
  match record_of clef e p with
  | Some it => bool_decide (REQUIRED_STREAK_PER_NOTE <= streak_or_0 it)
  | None => false
  end.

(** The record is absent or has [streak < requiredStreak]. *)
Definition lost (clef : string) (e : Engine) (p : ProgressionNote) : bool :=
  negb (mastered clef e p).

Definition never_attempted (clef : string) (e : Engine) (p : ProgressionNote)
    : bool :=
  bool_decide (record_of clef e p = None).

Definition attempted (clef : string) (e : Engine) (p : ProgressionNote) : bool :=
  negb (never_attempted clef e p).

(** Struggling: a record with [level == 0] or [streak < requiredStreak]. *)
Definition struggling (clef : string) (e : Engine) (p : ProgressionNote) : bool :=
  match record_of clef e p with
  | Some it =>
      bool_decide (level it = 0%nat)
      || bool_decide (streak_or_0 it < REQUIRED_STREAK_PER_NOTE)
  | None => false
  end.

(** Due: a record with [nextReviewAt <= now]. *)
Definition due (now : Z) (clef : string) (e : Engine) (p : ProgressionNote)
    : bool :=
  match record_of clef e p with
  | Some it => bool_decide (nextReview it <= now)
  | None => false
  end.

(** The card is the one of curriculum entry [i] of the clef. *)
Definition card_of_entry (clef : string) (i : nat) (c : Card) : Prop :=
  exists p, progression clef !! i = Some p
    /\ card_note c = p_n p /\ card_octave c = p_o p
    /\ card_id c = getKey clef (p_n p) (p_o p).

(** The fast threshold, in milliseconds. *)
Definition fastThreshold : Z := 2500.

(** The last stage of the interval table. *)
Definition maxLevel : nat := 5.

(** The interval table, in milliseconds. *)
Definition intervalTable (lvl : nat) : Z := (intervals !!! lvl) * 60000.

(** In the expected fundamental band. *)
Definition in_band (f : Q) : Prop :=
  (PitchDetector.expectedRange_min <= f /\ f <= PitchDetector.expectedRange_max)%Q.

End Spec.

Import SRSEngine Spec.

(** ** Relations, pools and scenarios used below *)

(** The items [m'] are the items [m], except that some missing streaks
    have been given the value 0. *)
Definition normalised (m m' : gmap string Item) : Prop :=
  forall id, m' !! id = m !! id \/ m' !! id = ensure_streak <$> m !! id.

(** The engine [e'] is [e] up to such streaks. *)
Definition same_engine (e e' : Engine) : Prop :=
  normalised (items (data e)) (items (data e'))
  /\ unlockedCount (data e') = unlockedCount (data e)
  /\ stats (data e') = stats (data e)
  /\ recentAttempts (data e') = recentAttempts (data e)
  /\ localStorage e' = localStorage e.

(** The number of unlocked entries whose record is absent or under the
    required streak. *)
Definition lost_count (clef : string) (e : Engine) : Z :=
  Z.of_nat (length (filter (fun p => lost clef e p = true) (unlocked_prefix clef e))).

(** The entries of a list that satisfy [P], in order. *)
Definition entry_pool (P : ProgressionNote -> bool) (l : list ProgressionNote)
    : list ProgressionNote :=
  filter (fun p => P p = true) l.

(** The new-note branch of the selector is taken: some unlocked entry has no
    record, the struggling branch before it is not taken (no struggling
    entry, or its draw is not under 0.4), and the branch's own draw is under
    0.3. *)
Definition new_branch_taken (clef : string) (rand : nat -> Q) (e : Engine) : Prop :=
  entry_pool (never_attempted clef e) (unlocked_prefix clef e) <> []
  /\ match entry_pool (struggling clef e) (unlocked_prefix clef e) with
     | [] => Qltb (rand 0%nat) 0.3 = true
     | _ :: _ => Qltb (rand 0%nat) 0.4 = false /\ Qltb (rand 1%nat) 0.3 = true
     end.

(** [p] is the first entry of the unlocked prefix, in curriculum order, that
    has no record. *)
Definition first_never_attempted (clef : string) (e : Engine)
    (p : ProgressionNote) : Prop :=
  exists i : nat,
    unlocked_prefix clef e !! i = Some p
    /\ never_attempted clef e p = true
    /\ forall (j : nat) (q : ProgressionNote),
         (j < i)%nat -> unlocked_prefix clef e !! j = Some q ->
         never_attempted clef e q = false.

(** A store in which the three notes unlocked at the start are mastered in
    the treble clef. *)
Definition three_mastered : Engine :=
  let mastered_item := {| level := 5; nextReview := 0; streak := Some 20 |} in
  {| data := set_items (fun _ => <["treble-C4" := mastered_item]>
                                   (<["treble-D4" := mastered_item]>
                                      (<["treble-E4" := mastered_item]> ∅)))
               initialData;
     localStorage := None |}.

(** The engines a session reaches from a first start, by the public
    methods. *)
Inductive reachable : Engine -> Prop :=
| reach_new : reachable (constructor None)
| reach_reload e : reachable e -> reachable (constructor (localStorage e))
| reach_reset e : reachable e -> reachable (resetData e)
| reach_recordResult e cardId isCorrect timeDelta now :
    reachable e ->
    reachable (snd (recordResult cardId isCorrect timeDelta now e))
| reach_checkProgression e clef b e' :
    reachable e -> checkProgression clef e = Ok (b, e') -> reachable e'
| reach_checkRegression e clef b e' :
    reachable e -> checkRegression clef e = Ok (b, e') -> reachable e'
| reach_generateCard e clef keySig now rand c e' :
    reachable e -> generateCard clef keySig now rand e = Ok (c, e') ->
    reachable e'.

(** A new store after one fast correct answer on the first treble note, and
    after a second, slow one. *)
Definition first_answer : Engine :=
  snd (recordResult "treble-C4" true 1000 0 (constructor None)).

Definition slow_answer : Engine :=
  snd (recordResult "treble-C4" true 3000 5000 first_answer).

(** Draws of [Math.random()]: 0.9 first, 0.1 afterwards. *)
Definition draws_high_low (k : nat) : Q :=
  match k with O => 0.9%Q | _ => 0.1%Q end.

(** The store [three_mastered] after the unlock check on the treble clef. *)
Definition after_treble_unlock : Engine :=
  match checkProgression "treble" three_mastered with
  | Ok (_, e') => e'
  | Raise _ => three_mastered
  end.

(** A learner's practice: [k] fast correct answers on a note. *)
Fixpoint answer_times (k : nat) (cardId : string) (e : Engine) : Engine :=
  match k with
  | O => e
  | Datatypes.S k' =>
      answer_times k' cardId (snd (recordResult cardId true 1000 0 e))
  end.

(** Twenty fast correct answers on every unlocked note of the clef, then the
    unlock check. *)
Definition practise_round (clef : string) (e : Engine) : Engine :=
  let e1 :=
    foldl (fun e p => answer_times 20 (getKey clef (p_n p) (p_o p)) e)
          e (unlocked_prefix clef e) in
  match checkProgression clef e1 with
  | Ok (_, e2) => e2
  | Raise _ => e1
  end.

(** A learner who has practised the treble clef for nine rounds. *)
Definition treble_learner : Engine :=
  Nat.iter 9 (practise_round "treble") (constructor None).

(** A record as the engine writes it: the streak is present and not
    negative, and the level is a stage of the interval table. *)
Definition record_ok (it : Item) : Prop :=
  (exists s : Z, streak it = Some s /\ 0 <= s) /\ (level it <= 5)%nat.

(** Data as the engine keeps it. *)
Definition data_ok (d : Data) : Prop :=
  (forall (id : string) (it : Item), items d !! id = Some it -> record_ok it)
  /\ 3 <= unlockedCount d
  /\ 0 <= stats_streak (stats d) <= stats_correct (stats d)
  /\ stats_correct (stats d) <= stats_total (stats d)
  /\ (length (recentAttempts d) <= 50)%nat
  /\ Z.of_nat (length (recentAttempts d)) <= stats_total (stats d).

(** The store holds the engine's data, or is empty while the data is the
    initial one. *)
Definition in_sync (e : Engine) : Prop :=
  localStorage e = Some (data e)
  \/ (localStorage e = None /\ data e = initialData).

(** The streak the checks read for a note: [item.streak || 0] of its record,
    and 0 as well when there is no record (which the checks count as not
    mastered). *)
Definition streak_of (cardId : string) (e : Engine) : Z :=
  from_option streak_or_0 0 (getItem cardId e).

(** The practice of [practise_round], before its unlock check. *)
Definition practise (clef : string) (l : list ProgressionNote) (e : Engine) : Engine :=
  foldl (fun e p => answer_times 20 (getKey clef (p_n p) (p_o p)) e) e l.

(** The sentinel, or a frequency of the expected band. *)
Definition sentinel_or_in_band (f : Q) : Prop := f = (-1)%Q \/ in_band f.

(** * Properties *)

(** ** Loops *)

Section Loops.

Context {A S R : Type}.
Implicit Types (prog : list A) (step : A -> S -> Completion S R).

Lemma index_lookup prog (i : Z) :
  0 <= i -> index prog i = prog !! Z.to_nat i.
Proof. intros Hi. unfold index. by rewrite decide_True. Qed.

(** An indexed loop that stays within the array is the loop over its
    elements. *)
Lemma for_from_with_entry prog step (k : nat) : forall (i : Z) (s : S),
  0 <= i -> (Z.to_nat i + k <= length prog)%nat ->
  for_from i k (with_entry prog step) s
  = for_of (take k (drop (Z.to_nat i) prog)) step s.
Proof.
  induction k as [|k IH]; intros i s Hi Hlen; [done|].
  cbn [for_from]. unfold with_entry at 1. rewrite index_lookup by done.
  destruct (prog !! Z.to_nat i) as [p|] eqn:Hp.
  - rewrite (drop_S _ _ _ Hp). cbn [take for_of].
    destruct (step p s) as [s'| |]; [|done..].
    rewrite IH by lia. by replace (Z.to_nat (i + 1)) with (Datatypes.S (Z.to_nat i)) by lia.
  - apply lookup_ge_None in Hp. lia.
Qed.

Lemma for_loop_with_entry prog step (hi : Z) (s : S) :
  hi <= Z.of_nat (length prog) ->
  for_loop 0 hi (with_entry prog step) s
  = for_of (take (Z.to_nat hi) prog) step s.
Proof.
  intros Hhi. unfold for_loop. rewrite for_from_with_entry by lia.
  by rewrite Z.sub_0_r.
Qed.

(** An indexed loop that runs past the end of the array, and whose body
    never returns early, ends in a [TypeError]. *)
Lemma for_from_overrun prog step (k : nat) : forall (i : Z) (s : S),
  (forall p s, exists s', step p s = Continue s') ->
  0 <= i -> (Z.to_nat i <= length prog < Z.to_nat i + k)%nat ->
  for_from i k (with_entry prog step) s = Throw TypeError.
Proof.
  induction k as [|k IH]; intros i s Hstep Hi Hlen; [lia|].
  cbn [for_from]. unfold with_entry at 1. rewrite index_lookup by done.
  destruct (prog !! Z.to_nat i) as [p|] eqn:Hp; [|done].
  apply lookup_lt_Some in Hp.
  destruct (Hstep p s) as [s' ->]. apply IH; [done|lia|lia].
Qed.

(** What an early [return] of a loop gives comes from its body. *)
Lemma for_from_Return (P : R -> Prop) (body : Z -> S -> Completion S R)
    (k : nat) : forall (i : Z) (s : S) (r : R),
  (forall i s r, body i s = Return r -> P r) ->
  for_from i k body s = Return r -> P r.
Proof.
  induction k as [|k IH]; intros i s r Hbody; [done|].
  cbn [for_from]. destruct (body i s) as [s'|r'|x] eqn:Hb; [|intros [= <-]|done].
  - by apply IH.
  - by eapply Hbody.
Qed.

Lemma for_of_Return (P : R -> Prop) step (xs : list A) : forall (s : S) (r : R),
  (forall x s r, step x s = Return r -> P r) ->
  for_of xs step s = Return r -> P r.
Proof.
  induction xs as [|x xs IH]; intros s r Hstep; [done|].
  cbn [for_of]. destruct (step x s) as [s'|r'|e] eqn:Hb; [|intros [= <-]|done].
  - by apply IH.
  - by eapply Hstep.
Qed.

End Loops.

(** ** recordResult *)

Lemma getItem_recordResult cardId isCorrect timeDelta now e :
  exists it,
    getItem cardId (snd (recordResult cardId isCorrect timeDelta now e)) = Some it
    /\ localStorage (snd (recordResult cardId isCorrect timeDelta now e))
       = Some (data (snd (recordResult cardId isCorrect timeDelta now e))).
Proof.
  unfold recordResult, getItem.
  destruct isCorrect; [destruct (bool_decide (timeDelta <= 2500))|];
    cbn; rewrite lookup_insert_eq; eauto.
Qed.

Lemma streak_or_0_ensure it : streak_or_0 (ensure_streak it) = streak_or_0 it.
Proof. by destruct it as [? ? [?|]]. Qed.

Lemma level_ensure it : level (ensure_streak it) = level it.
Proof. by destruct it as [? ? [?|]]. Qed.

Lemma nextReview_ensure it : nextReview (ensure_streak it) = nextReview it.
Proof. by destruct it as [? ? [?|]]. Qed.

Lemma ensure_streak_idemp it : ensure_streak (ensure_streak it) = ensure_streak it.
Proof. by destruct it as [? ? [?|]]. Qed.

(** C2: whatever the note and its record were, a wrong answer leaves the
    record with streak 0, level 0 and a review time one minute after now;
    the answer is reported as wrong and the data is saved. *)
Theorem recordResult_wrong_resets (cardId : string) (timeDelta now : Z) (e : Engine) :
  let e' := snd (recordResult cardId false timeDelta now e) in
  getItem cardId e'
  = Some {| level := 0; nextReview := now + 60000; streak := Some 0 |}
  /\ fst (recordResult cardId false timeDelta now e) = "wrong"
  /\ localStorage e' = Some (data e').
Proof.
  cbn. unfold getItem. cbn. rewrite lookup_insert_eq.
  split; [|done]. do 2 f_equal.
Qed.

(** C3, as stated, fails: a note answered correctly in 3000 ms, above the
    fast threshold, has its streak raised from 1 to 2. *)
Lemma slow_correct_raises_streak :
  ~ (forall (cardId : string) (isCorrect : bool) (timeDelta now : Z)
            (e : Engine) (it it' : Item),
        getItem cardId e = Some it ->
        getItem cardId (snd (recordResult cardId isCorrect timeDelta now e)) = Some it' ->
        streak_or_0 it < streak_or_0 it' ->
        isCorrect = true /\ timeDelta <= fastThreshold)
  /\ fst (recordResult "treble-C4" true 3000 5000 first_answer) = "slow"
  /\ streak <$> getItem "treble-C4" first_answer = Some (Some 1)
  /\ streak <$> getItem "treble-C4" slow_answer = Some (Some 2).
Proof.
  split; [|by vm_compute].
  intros H.
  destruct (H "treble-C4" true 3000 5000 first_answer
              {| level := 1; nextReview := 300000; streak := Some 1 |}
              {| level := 1; nextReview := 185000; streak := Some 2 |})
    as [_ Hfast]; [by vm_compute..|].
  unfold fastThreshold in Hfast. lia.
Qed.

(** C3, amended: the streak of the answered note goes up by exactly 1 on
    every correct answer, fast or slow, and is 0 after a wrong one; a record
    that does not exist yet counts as streak 0. *)
Theorem recordResult_streak (cardId : string) (isCorrect : bool)
    (timeDelta now : Z) (e : Engine) :
  let prior := streak_or_0 (default new_item (getItem cardId e)) in
  streak <$> getItem cardId (snd (recordResult cardId isCorrect timeDelta now e))
  = Some (Some (if isCorrect then prior + 1 else 0)).
Proof.
  unfold recordResult, getItem.
  destruct isCorrect; [destruct (bool_decide (timeDelta <= 2500))|];
    cbn; rewrite lookup_insert_eq; cbn; by rewrite ?streak_or_0_ensure.
Qed.

(** C4: a correct answer within 2500 ms raises the streak by 1, moves the
    level to [min (level + 1) maxLevel] and schedules the review at now plus
    the interval of the new level.  On a note without a record, an answer in
    1000 ms gives streak 1 and level 1, and a second one gives streak 2. *)
Theorem recordResult_fast_correct (cardId : string) (timeDelta now : Z)
    (e : Engine) (Hfast : timeDelta <= fastThreshold) :
  (let it := default new_item (getItem cardId e) in
   let lvl := Nat.min (level it + 1) maxLevel in
   getItem cardId (snd (recordResult cardId true timeDelta now e))
   = Some {| level := lvl;
             nextReview := now + intervalTable lvl;
             streak := Some (streak_or_0 it + 1) |}
   /\ fst (recordResult cardId true timeDelta now e) = "correct")
  /\ (getItem cardId e = None ->
      forall now1 now2 : Z,
        let e1 := snd (recordResult cardId true 1000 now1 e) in
        let e2 := snd (recordResult cardId true 1000 now2 e1) in
        (exists t, getItem cardId e1
                   = Some {| level := 1; nextReview := t; streak := Some 1 |})
        /\ streak <$> getItem cardId e2 = Some (Some 2)).
Proof.
  assert (Hgen : forall (dt t : Z) (e0 : Engine),
            dt <= 2500 ->
            getItem cardId (snd (recordResult cardId true dt t e0))
            = Some {| level := Nat.min (level (default new_item (getItem cardId e0)) + 1)
                                 maxLevel;
                      nextReview :=
                        t + intervalTable
                              (Nat.min (level (default new_item (getItem cardId e0)) + 1)
                                 maxLevel);
                      streak :=
                        Some (streak_or_0 (default new_item (getItem cardId e0)) + 1) |}).
  { intros dt t e0 Hdt. unfold recordResult, getItem.
    rewrite bool_decide_eq_true_2 by done.
    cbn. rewrite lookup_insert_eq.
    rewrite streak_or_0_ensure, level_ensure.
    unfold intervalTable, maxLevel. do 3 f_equal. lia. }
  split.
  - split; [by apply Hgen|].
    unfold recordResult, fastThreshold in *.
    by rewrite bool_decide_eq_true_2 by done.
  - intros Hnew now1 now2. cbv zeta.
    pose proof (Hgen 1000 now1 e ltac:(lia)) as H1. rewrite Hnew in H1. cbn in H1.
    split; [eauto|].
    rewrite (Hgen 1000 now2 _ ltac:(lia)), H1. reflexivity.
Qed.

(** C4 applies: a first answer in 1000 ms on a new store. *)
Lemma recordResult_fast_correct_witness :
  1000 <= fastThreshold
  /\ getItem "treble-C4" (snd (recordResult "treble-C4" true 1000 0 (constructor None)))
     = Some {| level := 1; nextReview := 300000; streak := Some 1 |}.
Proof.
  assert (Hfast : 1000 <= fastThreshold) by (unfold fastThreshold; lia).
  split; [exact Hfast|].
  exact (proj1 (proj1 (recordResult_fast_correct "treble-C4" 1000 0
                         (constructor None) Hfast))).
Defined.

(** ** What the loops leave of the engine

    The loops of [checkProgression] and [generateCard] write to the records
    they visit, but only to give a missing [streak] the value 0. *)

Lemma normalised_refl m : normalised m m.
Proof. intros id. by left. Qed.

Lemma normalised_insert m m' id it :
  normalised m m' -> m' !! id = Some it ->
  normalised m (<[id := ensure_streak it]> m').
Proof.
  intros Hn Hit id'. destruct (decide (id = id')) as [<-|Hne].
  - rewrite lookup_insert_eq. right.
    destruct (Hn id) as [H|H]; rewrite Hit in H.
    + by rewrite <- H.
    + destruct (m !! id) as [it0|]; [|done]. cbn in *.
      injection H as ->. by rewrite ensure_streak_idemp.
  - rewrite lookup_insert_ne by done. apply Hn.
Qed.

Lemma same_engine_refl e : same_engine e e.
Proof. split; [apply normalised_refl|done]. Qed.

Lemma same_engine_insert e e' id it :
  same_engine e e' -> items (data e') !! id = Some it ->
  same_engine e (set_data (set_items (insert id (ensure_streak it))) e').
Proof.
  intros (Hn & ? & ? & ? & ?) Hit. split; [|done].
  cbn. by apply normalised_insert.
Qed.

(** A view of a record that ignores whether a missing streak was filled. *)
Lemma normalised_view {B} (f : Item -> B) m m' id :
  (forall it, f (ensure_streak it) = f it) ->
  normalised m m' -> f <$> m' !! id = f <$> m !! id.
Proof.
  intros Hf Hn. destruct (Hn id) as [->| ->]; [done|].
  destruct (m !! id); cbn; by rewrite ?Hf.
Qed.

Lemma same_engine_record {B} (f : Item -> B) clef e e' p :
  (forall it, f (ensure_streak it) = f it) ->
  same_engine e e' -> f <$> record_of clef e' p = f <$> record_of clef e p.
Proof. intros Hf [Hn _]. by apply normalised_view. Qed.

Lemma same_engine_absent clef e e' p :
  same_engine e e' -> record_of clef e' p = None <-> record_of clef e p = None.
Proof.
  intros H. pose proof (same_engine_record (fun _ => tt) clef e e' p (fun _ => eq_refl) H) as Hv.
  destruct (record_of clef e' p), (record_of clef e p); naive_solver.
Qed.

Lemma same_engine_mastered clef e e' p :
  same_engine e e' -> mastered clef e' p = mastered clef e p.
Proof.
  intros H. unfold mastered.
  pose proof (same_engine_record streak_or_0 clef e e' p streak_or_0_ensure H) as Hv.
  destruct (record_of clef e' p), (record_of clef e p); cbn in Hv; try done.
  by injection Hv as ->.
Qed.

Lemma filter_length_all {A} (P : A -> bool) (l : list A) :
  length (filter (fun x => P x = true) l) = length l <-> Forall (fun x => P x = true) l.
Proof.
  induction l as [|x l IH]; [by split; [constructor|]|].
  rewrite filter_cons. pose proof (length_filter (fun x => P x = true) l) as Hle.
  destruct (decide (P x = true)) as [Hx|Hx]; cbn.
  - rewrite Forall_cons. split; [intros [= H]; by split; [|apply IH] |].
    intros [_ H]. f_equal. by apply IH.
  - split; [lia|]. intros []%Forall_cons. done.
Qed.

(** ** checkProgression *)

Lemma checkProgression_loop clef e0 (l : list ProgressionNote) :
  forall (e : Engine) (r t : Z),
    same_engine e0 e ->
    match for_of l (checkProgression_step clef) (e, r, t) with
    | Continue (e', r', t') =>
        same_engine e0 e'
        /\ t' = t + Z.of_nat (length l)
        /\ r' = r + Z.of_nat (length (filter (fun p => mastered clef e0 p = true) l))
    | Return (b, e') =>
        b = false /\ same_engine e0 e'
        /\ Exists (fun p => record_of clef e0 p = None) l
    | Throw _ => False
    end.
Proof.
  induction l as [|p l IH]; intros e r t Hsame.
  { cbn. split; [done|]. split; lia. }
  cbn [for_of]. unfold checkProgression_step at 1.
  destruct (items (data e) !! getKey clef (p_n p) (p_o p)) as [it|] eqn:Hit.
  - pose proof (same_engine_insert _ _ _ _ Hsame Hit) as Hsame'.
    assert (Hm : mastered clef e0 p
                 = bool_decide (REQUIRED_STREAK_PER_NOTE <= streak_or_0 it)).
    { rewrite <- (same_engine_mastered clef e0 e p Hsame). unfold mastered, record_of.
      by rewrite Hit. }
    rewrite streak_or_0_ensure. rewrite filter_cons.
    destruct (decide (REQUIRED_STREAK_PER_NOTE <= streak_or_0 it)) as [Hr|Hr].
    + rewrite bool_decide_eq_true_2 in Hm by done.
      rewrite decide_True by done.
      specialize (IH _ (r + 1) (t + 1) Hsame').
      destruct (for_of l _ _) as [[[e' r'] t']|[b e']|]; [|..|done].
      * destruct IH as (? & -> & ->). split; [done|]. cbn [length]. split; lia.
      * destruct IH as (? & ? & ?). split; [done|]. split; [done|]. by apply Exists_cons_tl.
    + rewrite bool_decide_eq_false_2 in Hm by done.
      rewrite decide_False by (rewrite Hm; done).
      specialize (IH _ r (t + 1) Hsame').
      destruct (for_of l _ _) as [[[e' r'] t']|[b e']|]; [|..|done].
      * destruct IH as (? & -> & ->). split; [done|]. cbn [length]. split; lia.
      * destruct IH as (? & ? & ?). split; [done|]. split; [done|]. by apply Exists_cons_tl.
  - split; [done|]. split; [done|]. apply Exists_cons_hd.
    apply (same_engine_absent clef e0 e p Hsame). exact Hit.
Qed.

Lemma length_unlocked_prefix clef e :
  0 <= unlockedCount (data e) <= Z.of_nat (length (progression clef)) ->
  Z.of_nat (length (unlocked_prefix clef e)) = unlockedCount (data e).
Proof. intros H. unfold unlocked_prefix. rewrite length_take. lia. Qed.

(** The two ways [checkProgression] ends. *)
Lemma checkProgression_cases (clef : string) (e : Engine) :
  let n := unlockedCount (data e) in
  let len := Z.of_nat (length (progression clef)) in
  exists (b : bool) (e' : Engine),
    checkProgression clef e = Ok (b, e')
    /\ normalised (items (data e)) (items (data e'))
    /\ ((b = true /\ 0 < n < len
         /\ Forall (fun p => mastered clef e p = true) (unlocked_prefix clef e)
         /\ unlockedCount (data e') = n + 1
         /\ localStorage e' = Some (data e'))
        \/ (b = false
            /\ (n <= 0 \/ len <= n
                \/ ~ Forall (fun p => mastered clef e p = true) (unlocked_prefix clef e))
            /\ unlockedCount (data e') = n
            /\ localStorage e' = localStorage e)).
Proof.
  unfold checkProgression. cbv zeta.
  destruct (decide (Z.of_nat (length (progression clef)) <= unlockedCount (data e)))
    as [Hfull|Hroom].
  { exists false, e. split; [done|]. split; [apply normalised_refl|]. right. tauto. }
  unfold checkProgression_body. rewrite for_loop_with_entry by lia.
  fold (unlocked_prefix clef e).
  pose proof (checkProgression_loop clef e (unlocked_prefix clef e) e 0 0
                (same_engine_refl e)) as Hloop.
  pose proof (filter_length_all (mastered clef e) (unlocked_prefix clef e)) as Hall.
  destruct (for_of _ _ _) as [[[e' r'] t']|[b e']|]; [| |done].
  - destruct Hloop as ((Hn & Hu & Hs & Hr & Hl) & -> & ->).
    destruct (decide (0 < 0 + Z.of_nat (length (unlocked_prefix clef e))
                      /\ 0 + Z.of_nat (length (filter (fun p => mastered clef e p = true)
                                                 (unlocked_prefix clef e)))
                         = 0 + Z.of_nat (length (unlocked_prefix clef e))))
      as [[Hpos Heq]|Hno].
    + eexists true, _. split; [done|]. split; [done|]. left. cbn. rewrite Hu.
      assert (0 < unlockedCount (data e)).
      { unfold unlocked_prefix in Hpos. rewrite length_take in Hpos. lia. }
      repeat split; try done; try lia. apply Hall. lia.
    + exists false, e'. split; [done|]. split; [done|]. right.
      repeat split; try done.
      destruct (decide (unlockedCount (data e) <= 0)); [tauto|].
      right. right. intros HF. apply Hall in HF.
      pose proof (length_unlocked_prefix clef e ltac:(lia)). lia.
  - destruct Hloop as (-> & (Hn & Hu & Hs & Hr & Hl) & Hex).
    exists false, e'. split; [done|]. split; [done|]. right.
    repeat split; try done. right. right.
    intros HF. apply Exists_exists in Hex as (p & Hp & Hnone).
    rewrite Forall_forall in HF. specialize (HF p Hp).
    unfold mastered in HF. by rewrite Hnone in HF.
Qed.

(** C5: on an engine whose cursor is positive (it never goes below its floor,
    see [unlockedCount_floor]), [checkProgression clef] returns, and it
    raises [unlockedCount] by exactly 1 if and only if the cursor is below
    the length of the clef's curriculum and every entry of the unlocked
    prefix has a record with [streak >= REQUIRED_STREAK_PER_NOTE]; it then
    returns [true] and saves the data.  Otherwise (one record missing or
    under the threshold is enough) the cursor and the store are left as they
    were.  The check never moves the cursor past the length of the
    curriculum. *)
Theorem checkProgression_unlocks_iff (clef : string) (e : Engine)
    (Hpos : 0 < unlockedCount (data e)) :
  exists (b : bool) (e' : Engine),
    checkProgression clef e = Ok (b, e')
    /\ let n := unlockedCount (data e) in
       let len := Z.of_nat (length (progression clef)) in
       ((n < len /\ Forall (fun p => mastered clef e p = true) (unlocked_prefix clef e))
        <-> unlockedCount (data e') = n + 1)
       /\ (b = true <-> unlockedCount (data e') = n + 1)
       /\ (unlockedCount (data e') = n + 1 -> localStorage e' = Some (data e'))
       /\ (unlockedCount (data e') <> n + 1 ->
           unlockedCount (data e') = n /\ localStorage e' = localStorage e)
       /\ (n <= len -> unlockedCount (data e') <= len).
Proof.
  destruct (checkProgression_cases clef e) as (b & e' & Hrun & _ & Hcases).
  exists b, e'. split; [done|]. cbv zeta.
  destruct Hcases as [(-> & Hn & HF & Hu & Hl)|(-> & Hwhy & Hu & Hl)]; rewrite Hu.
  - repeat split; try done; try lia.
  - repeat split; try done; try lia.
    intros [Hlt HF]. destruct Hwhy as [?|[?|?]]; [lia|lia|done].
Qed.

(** C5 applies to that store: cursor 3, three notes mastered. *)
Lemma checkProgression_unlocks_iff_witness :
  0 < unlockedCount (data three_mastered)
  /\ exists (b : bool) (e' : Engine),
       checkProgression "treble" three_mastered = Ok (b, e')
       /\ let n := unlockedCount (data three_mastered) in
          let len := Z.of_nat (length (progression "treble")) in
          ((n < len /\ Forall (fun p => mastered "treble" three_mastered p = true)
                              (unlocked_prefix "treble" three_mastered))
           <-> unlockedCount (data e') = n + 1)
          /\ (b = true <-> unlockedCount (data e') = n + 1)
          /\ (unlockedCount (data e') = n + 1 -> localStorage e' = Some (data e'))
          /\ (unlockedCount (data e') <> n + 1 ->
              unlockedCount (data e') = n /\ localStorage e' = localStorage three_mastered)
          /\ (n <= len -> unlockedCount (data e') <= len).
Proof.
  split; [reflexivity|].
  apply checkProgression_unlocks_iff. reflexivity.
Defined.

(** The examples of the specification: with cursor 3 and the three notes at
    the required streak the check moves the cursor to 4; with one of them
    one answer short it does not. *)
Example checkProgression_example_unlock :
  (fun r => match r with
            | Ok (b, e') => Some (b, unlockedCount (data e'))
            | Raise _ => None
            end) (checkProgression "treble" three_mastered)
  = Some (true, 4).
Proof. by vm_compute. Qed.

Example checkProgression_example_blocked :
  let e := set_data (set_items (insert "treble-D4"
                       {| level := 5; nextReview := 0; streak := Some 19 |}))
             three_mastered in
  (fun r => match r with
            | Ok (b, e') => Some (b, unlockedCount (data e'))
            | Raise _ => None
            end) (checkProgression "treble" e)
  = Some (false, 3).
Proof. by vm_compute. Qed.

(** ** checkRegression *)

Lemma checkRegression_step_continues clef e p (s : Z * Z) :
  exists s', checkRegression_step clef e p s = Continue s'.
Proof.
  destruct s as [lo t]. unfold checkRegression_step.
  destruct (items (data e) !! _) as [it|]; [|eauto].
  destruct (decide _); eauto.
Qed.

Lemma checkRegression_step_count clef e p (lo t : Z) :
  checkRegression_step clef e p (lo, t)
  = Continue (lo + (if lost clef e p then 1 else 0), t + 1).
Proof.
  unfold checkRegression_step, lost, mastered, record_of.
  destruct (items (data e) !! getKey clef (p_n p) (p_o p)) as [it|].
  - destruct (decide (streak_or_0 it < REQUIRED_STREAK_PER_NOTE)) as [Hlow|Hok].
    + by rewrite bool_decide_eq_false_2 by lia.
    + rewrite bool_decide_eq_true_2 by lia. cbn. do 2 f_equal. lia.
  - done.
Qed.

Lemma checkRegression_loop clef e (l : list ProgressionNote) : forall (lo t : Z),
  for_of l (checkRegression_step clef e) (lo, t)
  = Continue (lo + Z.of_nat (length (filter (fun p => lost clef e p = true) l)),
              t + Z.of_nat (length l)).
Proof.
  induction l as [|p l IH]; intros lo t.
  { cbn. do 2 f_equal; lia. }
  cbn [for_of]. rewrite checkRegression_step_count, IH, filter_cons.
  destruct (lost clef e p) eqn:Hp.
  - rewrite decide_True by done. cbn [length]. do 2 f_equal; lia.
  - rewrite decide_False by done. cbn [length]. do 2 f_equal; lia.
Qed.

(** [lo / t > 0.5] on counts: more than half. *)
Lemma more_than_half (lo t : Z) :
  0 < t -> Qltb 0.5 (inject_Z lo / inject_Z t) = true <-> t < 2 * lo.
Proof.
  intros Ht. unfold Qltb. rewrite negb_true_iff, <- not_true_iff_false, Qle_bool_iff.
  destruct t as [|t|t]; [lia| |lia].
  unfold Qle, Qdiv, Qmult, Qinv, inject_Z. cbn. lia.
Qed.

(** While the cursor is within the clef's curriculum, the regression check
    does what the specification says: it lowers the cursor by exactly 1, and
    saves, if and only if more than half of the unlocked entries are lost and
    the cursor is above 3; otherwise the engine is unchanged. *)
Lemma checkRegression_within_curriculum (clef : string) (e : Engine) :
  unlockedCount (data e) <= Z.of_nat (length (progression clef)) ->
  exists (b : bool) (e' : Engine),
    checkRegression clef e = Ok (b, e')
    /\ let n := unlockedCount (data e) in
       ((3 < n /\ n < 2 * lost_count clef e) <-> unlockedCount (data e') = n - 1)
       /\ (b = true <-> unlockedCount (data e') = n - 1)
       /\ (unlockedCount (data e') = n - 1 -> localStorage e' = Some (data e'))
       /\ (unlockedCount (data e') <> n - 1 -> e' = e).
Proof.
  intros Hin. unfold checkRegression. cbv zeta.
  destruct (decide (unlockedCount (data e) <= 3)) as [Hfloor|Habove].
  { exists false, e. split; [done|]. repeat split; try done; lia. }
  unfold checkRegression_body. rewrite for_loop_with_entry by done.
  fold (unlocked_prefix clef e). rewrite checkRegression_loop.
  fold (lost_count clef e).
  rewrite (length_unlocked_prefix clef e) by lia.
  rewrite !Z.add_0_l. rewrite decide_True by lia.
  rewrite bool_decide_eq_true_2 by lia. cbn [andb].
  pose proof (more_than_half (lost_count clef e) (unlockedCount (data e)) ltac:(lia))
    as Hhalf.
  destruct (Qltb 0.5 _).
  - eexists true, _. split; [done|]. cbn.
    repeat split; try done; try lia; try (by apply Hhalf).
  - exists false, e. split; [done|].
    repeat split; try done; try lia;
      try (intros [_ H]; apply Hhalf in H; done).
Qed.

(** At the floor the regression check changes nothing. *)
Lemma checkRegression_floor (clef : string) (e : Engine) :
  unlockedCount (data e) <= 3 -> checkRegression clef e = Ok (false, e).
Proof. intros H. unfold checkRegression. cbv zeta. by rewrite decide_True. Qed.

(** C6 fails when the cursor is past the end of the clef's curriculum, which
    the shared cursor allows (it follows the treble clef's 14 notes while the
    bass clef has 11): the loop of [checkRegression] then reads
    [prog[i].n] past the end, and the call raises a [TypeError] instead of
    lowering the cursor. *)
Theorem checkRegression_overrun (clef : string) (e : Engine)
    (Habove : 3 < unlockedCount (data e))
    (Hpast : Z.of_nat (length (progression clef)) < unlockedCount (data e)) :
  checkRegression clef e = Raise TypeError.
Proof.
  unfold checkRegression. cbv zeta. rewrite decide_False by lia.
  unfold for_loop, checkRegression_body.
  rewrite for_from_overrun; [done| |done|lia].
  intros p s. apply checkRegression_step_continues.
Qed.

(** ** generateCard *)

Lemma record_view {B} (f : Item -> B) clef e0 e p it :
  (forall it, f (ensure_streak it) = f it) ->
  same_engine e0 e -> record_of clef e p = Some it ->
  exists it0, record_of clef e0 p = Some it0 /\ f it0 = f it.
Proof.
  intros Hf Hsame Hit.
  pose proof (same_engine_record f clef e0 e p Hf Hsame) as Hv.
  rewrite Hit in Hv. destruct (record_of clef e0 p) as [it0|]; [|done].
  injection Hv as Hv. eauto.
Qed.

Lemma entry_pool_cons P p l :
  entry_pool P (p :: l) = if P p then p :: entry_pool P l else entry_pool P l.
Proof.
  unfold entry_pool. rewrite filter_cons.
  destruct (P p) eqn:HP; [by rewrite decide_True|by rewrite decide_False].
Qed.

(** The loop of [generateCard] sorts the entries it visits into the four
    pools, in curriculum order. *)
Lemma generateCard_loop clef keySig sigNotes now e0 (l : list ProgressionNote) :
  KEY_SIGNATURES keySig = Some sigNotes ->
  forall s : Pools,
    same_engine e0 (pool_engine s) ->
    exists s' : Pools,
      for_of l (generateCard_step clef keySig now) s = Continue s'
      /\ same_engine e0 (pool_engine s')
      /\ newItems s' = newItems s
           ++ (make_card clef keySig sigNotes <$> entry_pool (never_attempted clef e0) l)
      /\ strugglingItems s' = strugglingItems s
           ++ (make_card clef keySig sigNotes <$> entry_pool (struggling clef e0) l)
      /\ dueItems s' = dueItems s
           ++ (make_card clef keySig sigNotes <$> entry_pool (due now clef e0) l)
      /\ candidates s' = candidates s
           ++ (make_card clef keySig sigNotes <$> entry_pool (attempted clef e0) l).
Proof.
  intros Hsig. induction l as [|p l IH]; intros s Hsame.
  { exists s. cbn. by rewrite !app_nil_r. }
  cbn [for_of]. unfold generateCard_step at 1. rewrite Hsig.
  rewrite !entry_pool_cons.
  destruct (items (data (pool_engine s)) !! getKey clef (p_n p) (p_o p))
    as [it|] eqn:Hit.
  - pose proof (same_engine_insert _ _ _ _ Hsame Hit) as Hsame'.
    destruct (record_view (fun it => (level it, nextReview it, streak_or_0 it))
                clef e0 (pool_engine s) p it) as (it0 & Hit0 & Hv); [|done..|].
    { intros it'. by rewrite level_ensure, nextReview_ensure, streak_or_0_ensure. }
    injection Hv as Hl Hn Hs.
    rewrite level_ensure, nextReview_ensure, streak_or_0_ensure.
    unfold never_attempted, attempted, never_attempted, struggling, due.
    rewrite Hit0, Hl, Hn, Hs.
    rewrite (bool_decide_eq_false_2 (Some it0 = None)) by done. cbn [negb].
    match goal with |- context [for_of l _ ?s1] => destruct (IH s1 Hsame') as
        (s' & -> & Hs' & Hnew & Hstr & Hdue & Hcand) end.
    exists s'. split; [done|]. split; [done|].
    rewrite Hnew, Hstr, Hdue, Hcand. cbn.
    repeat split.
    + destruct (_ || _); cbn; by rewrite <- ?app_assoc.
    + destruct (decide (nextReview it <= now)).
      * rewrite bool_decide_eq_true_2 by done. cbn. by rewrite <- app_assoc.
      * by rewrite bool_decide_eq_false_2 by done.
    + by rewrite <- app_assoc.
  - assert (Hnone : record_of clef e0 p = None).
    { by apply (same_engine_absent clef e0 (pool_engine s) p Hsame). }
    unfold attempted, never_attempted, struggling, due. rewrite Hnone.
    rewrite (bool_decide_eq_true_2 (None = None)) by done. cbn [negb].
    match goal with |- context [for_of l _ ?s1] => destruct (IH s1 Hsame) as
        (s' & -> & Hs' & Hnew & Hstr & Hdue & Hcand) end.
    exists s'. split; [done|]. split; [done|].
    rewrite Hnew, Hstr, Hdue, Hcand. cbn.
    repeat split. by rewrite <- app_assoc.
Qed.

Lemma take_limit (prog : list ProgressionNote) (n : Z) :
  take (Z.to_nat (Z.min n (Z.of_nat (length prog)))) prog = take (Z.to_nat n) prog.
Proof.
  destruct (decide (n <= Z.of_nat (length prog))).
  - by rewrite Z.min_l.
  - rewrite Z.min_r by lia. rewrite Nat2Z.id.
    rewrite take_ge by done. by rewrite take_ge by lia.
Qed.

(** The pools [generateCard] selects from. *)
Lemma generateCard_pools clef keySig sigNotes now rand e :
  KEY_SIGNATURES keySig = Some sigNotes ->
  exists s : Pools,
    generateCard clef keySig now rand e
    = Ok (select_card clef keySig rand s, pool_engine s)
    /\ same_engine e (pool_engine s)
    /\ newItems s = make_card clef keySig sigNotes
                      <$> entry_pool (never_attempted clef e) (unlocked_prefix clef e)
    /\ strugglingItems s = make_card clef keySig sigNotes
                      <$> entry_pool (struggling clef e) (unlocked_prefix clef e)
    /\ dueItems s = make_card clef keySig sigNotes
                      <$> entry_pool (due now clef e) (unlocked_prefix clef e)
    /\ candidates s = make_card clef keySig sigNotes
                      <$> entry_pool (attempted clef e) (unlocked_prefix clef e).
Proof.
  intros Hsig. unfold generateCard. cbv zeta.
  unfold generateCard_body. rewrite for_loop_with_entry by lia.
  rewrite take_limit. fold (unlocked_prefix clef e).
  match goal with |- context [for_of _ _ ?s0] =>
    destruct (generateCard_loop clef keySig sigNotes now e (unlocked_prefix clef e)
                Hsig s0 (same_engine_refl e))
      as (s & -> & Hs & Hnew & Hstr & Hdue & Hcand) end.
  exists s. cbn in *. done.
Qed.

Lemma entry_pool_head P (l : list ProgressionNote) p r :
  entry_pool P l = p :: r ->
  exists i : nat,
    l !! i = Some p /\ P p = true
    /\ forall (j : nat) (q : ProgressionNote),
         (j < i)%nat -> l !! j = Some q -> P q = false.
Proof.
  induction l as [|x l IH]; [done|].
  rewrite entry_pool_cons. destruct (P x) eqn:Hx.
  - intros [= -> _]. exists 0%nat. repeat split; [done|]. intros; lia.
  - intros (i & Hi & Hp & Hbefore)%IH. exists (Datatypes.S i).
    repeat split; [done..|]. intros [|j] q Hj; cbn.
    + by intros [= <-].
    + apply Hbefore. lia.
Qed.

(** C8: when the new-note branch is taken, [generateCard] returns the card of
    the first entry of the unlocked prefix, in curriculum order, that has no
    mastery record; no draw chooses among the new entries. *)
Theorem generateCard_new_branch_first (clef keySig : string) (sigNotes : list string)
    (now : Z) (rand : nat -> Q) (e : Engine)
    (Hsig : KEY_SIGNATURES keySig = Some sigNotes)
    (Hnew : new_branch_taken clef rand e) :
  exists (p : ProgressionNote) (e' : Engine),
    generateCard clef keySig now rand e
    = Ok (Some (make_card clef keySig sigNotes p), e')
    /\ first_never_attempted clef e p.
Proof.
  destruct (generateCard_pools clef keySig sigNotes now rand e Hsig)
    as (s & -> & _ & HN & HS & _ & _).
  destruct Hnew as [Hne Hdraw].
  destruct (entry_pool (never_attempted clef e) (unlocked_prefix clef e))
    as [|p r] eqn:Hpool; [done|].
  exists p, (pool_engine s). split.
  - f_equal. f_equal. unfold select_card. rewrite HS, HN.
    destruct (entry_pool (struggling clef e) (unlocked_prefix clef e)) as [|q qs].
    + cbn. by rewrite Hdraw.
    + destruct Hdraw as [H0 H1]. cbn. by rewrite H0, H1.
  - apply entry_pool_head in Hpool as (i & ? & ? & ?). by exists i.
Qed.

(** C8 applies: after one answer on the first note, with a first draw of
    0.9 and a second of 0.1, the new-note branch gives the second note. *)
Lemma generateCard_new_branch_first_witness :
  KEY_SIGNATURES "G" = Some ["F#"]
  /\ new_branch_taken "treble" draws_high_low first_answer
  /\ exists (p : ProgressionNote) (e' : Engine),
       generateCard "treble" "G" 60000 draws_high_low first_answer
       = Ok (Some (make_card "treble" "G" ["F#"] p), e')
       /\ first_never_attempted "treble" first_answer p.
Proof.
  assert (Hb : new_branch_taken "treble" draws_high_low first_answer).
  { split; by vm_compute. }
  split; [reflexivity|]. split; [exact Hb|].
  apply (generateCard_new_branch_first "treble" "G" ["F#"] 60000 _ _ eq_refl Hb).
Defined.

(** The example above, evaluated: the card is D4, not the struggling C4. *)
Example generateCard_new_branch_example :
  fst <$> (match generateCard "treble" "G" 60000 draws_high_low first_answer with
           | Ok r => Some r | Raise _ => None end)
  = Some (Some {| card_clef := "treble"; card_keySig := "G";
                  card_note := "D"; card_octave := 4;
                  card_accidental := None; card_id := "treble-D4" |}).
Proof. by vm_compute. Qed.

(** [arr[Math.floor(r * arr.length)]] with [0 <= r < 1] is an element of a
    non-empty [arr]. *)
Lemma pick_elem (r : Q) (arr : list Card) :
  (0 <= r)%Q -> (r < 1)%Q -> arr <> [] ->
  exists c, pick r arr = Some c /\ c ∈ arr.
Proof.
  intros H0 H1 Hne. unfold pick.
  set (len := Z.of_nat (length arr)).
  assert (Hlen : 0 < len) by (destruct arr; [done|cbn in len; lia]).
  assert (Hpos : (0 < inject_Z len)%Q).
  { change 0%Q with (inject_Z 0). rewrite <- Zlt_Qlt. lia. }
  assert (Hlo : 0 <= Qfloor (r * inject_Z len)).
  { change 0 with (Qfloor 0). apply Qfloor_resp_le.
    apply Qmult_le_0_compat; [done|]. by apply Qlt_le_weak. }
  assert (Hhi : Qfloor (r * inject_Z len) < len).
  { rewrite Zlt_Qlt. apply Qle_lt_trans with (r * inject_Z len)%Q; [apply Qfloor_le|].
    apply Qlt_le_trans with (1 * inject_Z len)%Q.
    - by apply Qmult_lt_compat_r.
    - rewrite Qmult_1_l. apply Qle_refl. }
  rewrite index_lookup by done.
  destruct (arr !! Z.to_nat (Qfloor (r * inject_Z len))) as [c|] eqn:Hc.
  - exists c. split; [done|]. by eapply list_elem_of_lookup_2.
  - apply lookup_ge_None in Hc. lia.
Qed.

Lemma pool_card_of_entry clef keySig sigNotes e P (c : Card) :
  c ∈ make_card clef keySig sigNotes <$> entry_pool P (unlocked_prefix clef e) ->
  exists i : nat, Z.of_nat i < unlockedCount (data e) /\ card_of_entry clef i c.
Proof.
  intros (p & -> & Hp)%list_elem_of_fmap.
  apply list_elem_of_filter in Hp as [_ Hp].
  apply list_elem_of_lookup in Hp as [i Hi].
  unfold unlocked_prefix in Hi. apply lookup_take_Some in Hi as [Hi Hlt].
  exists i. split; [lia|]. by exists p.
Qed.

(** X16: what [generateCard] can return, for a known key signature and draws
    in [0, 1): the card of an entry below the cursor, or the hardcoded
    fallback card; the engine differs at most by streaks filled in with 0. *)
Lemma generateCard_entry_or_fallback clef keySig sigNotes now rand e :
  KEY_SIGNATURES keySig = Some sigNotes ->
  (forall k, 0 <= rand k /\ rand k < 1)%Q ->
  exists (c : Card) (e' : Engine),
    generateCard clef keySig now rand e = Ok (Some c, e')
    /\ same_engine e e'
    /\ ((exists i : nat, Z.of_nat i < unlockedCount (data e) /\ card_of_entry clef i c)
        \/ (c = fallback_card clef keySig
            /\ entry_pool (attempted clef e) (unlocked_prefix clef e) = [])).
Proof.
  intros Hsig Hrand.
  destruct (generateCard_pools clef keySig sigNotes now rand e Hsig)
    as (s & -> & Hsame & HN & HS & HD & HC).
  assert (Hpick : forall k P,
             make_card clef keySig sigNotes <$> entry_pool P (unlocked_prefix clef e) <> [] ->
             exists c, pick (rand k)
                         (make_card clef keySig sigNotes
                            <$> entry_pool P (unlocked_prefix clef e)) = Some c
                       /\ exists i : nat, Z.of_nat i < unlockedCount (data e)
                                          /\ card_of_entry clef i c).
  { intros k P Hne. destruct (Hrand k) as [H0 H1].
    destruct (pick_elem (rand k) _ H0 H1 Hne) as (c & Hc & Hin).
    exists c. split; [done|]. by eapply pool_card_of_entry. }
  assert (Hsel : exists c, select_card clef keySig rand s = Some c
            /\ ((exists i : nat, Z.of_nat i < unlockedCount (data e)
                                 /\ card_of_entry clef i c)
                \/ (c = fallback_card clef keySig
                    /\ entry_pool (attempted clef e) (unlocked_prefix clef e) = []))).
  { unfold select_card. rewrite HS, HN, HD, HC.
    set (S := entry_pool (struggling clef e) (unlocked_prefix clef e)).
    set (Nw := entry_pool (never_attempted clef e) (unlocked_prefix clef e)).
    set (D := entry_pool (due now clef e) (unlocked_prefix clef e)).
    set (C := entry_pool (attempted clef e) (unlocked_prefix clef e)).
    assert (Hrest : forall k,
      exists c,
        match make_card clef keySig sigNotes <$> D with
        | _ :: _ => pick (rand k) (make_card clef keySig sigNotes <$> D)
        | [] => match make_card clef keySig sigNotes <$> C with
                | _ :: _ => pick (rand k) (make_card clef keySig sigNotes <$> C)
                | [] => Some (fallback_card clef keySig)
                end
        end = Some c
        /\ ((exists i : nat, Z.of_nat i < unlockedCount (data e)
                             /\ card_of_entry clef i c)
            \/ (c = fallback_card clef keySig /\ C = []))).
    { intros k. destruct D as [|d D'] eqn:HDl.
      - destruct C as [|c0 C'] eqn:HCl; cbn [fmap list_fmap].
        + exists (fallback_card clef keySig). split; [done|]. by right.
        + destruct (Hpick k (attempted clef e)) as (c & Hc & Hi).
          { fold C. by rewrite HCl. }
          fold C in Hc. rewrite HCl in Hc. exists c. split; [done|]. by left.
      - destruct (Hpick k (due now clef e)) as (c & Hc & Hi).
        { fold D. by rewrite HDl. }
        fold D in Hc. rewrite HDl in Hc. exists c. split; [done|]. by left. }
    assert (Hnewrest : forall k,
      exists c,
        (let '(takeNew, k') :=
           match make_card clef keySig sigNotes <$> Nw with
           | [] => (false, k)
           | _ :: _ => (Qltb (rand k) 0.3, Datatypes.S k)
           end in
         if takeNew then index (make_card clef keySig sigNotes <$> Nw) 0
         else
           match make_card clef keySig sigNotes <$> D with
           | _ :: _ => pick (rand k') (make_card clef keySig sigNotes <$> D)
           | [] => match make_card clef keySig sigNotes <$> C with
                   | _ :: _ => pick (rand k') (make_card clef keySig sigNotes <$> C)
                   | [] => Some (fallback_card clef keySig)
                   end
           end) = Some c
        /\ ((exists i : nat, Z.of_nat i < unlockedCount (data e)
                             /\ card_of_entry clef i c)
            \/ (c = fallback_card clef keySig /\ C = []))).
    { intros k. destruct Nw as [|p Nw'] eqn:HNl; cbn [fmap list_fmap].
      - apply Hrest.
      - destruct (Qltb (rand k) 0.3); [|apply Hrest].
        exists (make_card clef keySig sigNotes p). split; [done|]. left.
        apply (pool_card_of_entry clef keySig sigNotes e (never_attempted clef e)).
        fold Nw. rewrite HNl. cbn. apply list_elem_of_here. }
    destruct S as [|q S'] eqn:HSl; cbn [fmap list_fmap].
    - apply Hnewrest.
    - destruct (Qltb (rand 0%nat) 0.4); [|apply Hnewrest].
      destruct (Hpick 1%nat (struggling clef e)) as (c & Hc & Hi).
      { fold S. by rewrite HSl. }
      fold S in Hc. rewrite HSl in Hc. exists c. split; [done|]. by left. }
  destruct Hsel as (c & -> & Hc). by exists c, (pool_engine s).
Qed.

(** C7 fails on a new store: no note has a record, the draw of the new-note
    branch is 0.5 (not under 0.3), the due and review pools are empty, and
    [generateCard] returns the hardcoded card C4 with id "fallback", which is
    the card of no entry of the bass curriculum. *)
Theorem generateCard_fresh_store_fallback (now : Z) :
  generateCard "bass" "C" now (fun _ => 0.5%Q) (constructor None)
  = Ok (Some (fallback_card "bass" "C"), constructor None)
  /\ (forall (i : nat) (p : ProgressionNote),
        progression "bass" !! i = Some p ->
        (card_note (fallback_card "bass" "C"), card_octave (fallback_card "bass" "C"))
        <> (p_n p, p_o p))
  /\ (forall i : nat, ~ card_of_entry "bass" i (fallback_card "bass" "C")).
Proof.
  assert (Hno : forall (i : nat) (p : ProgressionNote),
             progression "bass" !! i = Some p ->
             (card_note (fallback_card "bass" "C"),
              card_octave (fallback_card "bass" "C")) <> (p_n p, p_o p)).
  { intros i p Hp. change (progression "bass") with PROGRESSION_bass in Hp.
    do 11 (destruct i as [|i]; [injection Hp as <-; by cbn|]). done. }
  split; [by vm_compute|]. split; [exact Hno|].
  intros i (p & Hp & Hn & Ho & _). apply (Hno i p Hp). by rewrite Hn, Ho.
Qed.

(** ** The engines a session can reach *)

Lemma checkRegression_cases (clef : string) (e : Engine) (b : bool) (e' : Engine) :
  checkRegression clef e = Ok (b, e') ->
  (b = false /\ e' = e)
  \/ (b = true /\ 3 < unlockedCount (data e)
      /\ unlockedCount (data e') = unlockedCount (data e) - 1
      /\ items (data e') = items (data e)
      /\ localStorage e' = Some (data e')).
Proof.
  unfold checkRegression. cbv zeta.
  destruct (decide (unlockedCount (data e) <= 3)) as [Hfloor|Habove].
  { intros [= <- <-]. by left. }
  destruct (for_loop _ _ _ _) as [[lo t]|r|x] eqn:Hloop; [| |done].
  - destruct (_ && _).
    + intros [= <- <-]. right. cbn. repeat split; [lia|lia].
    + intros [= <- <-]. by left.
  - exfalso. unfold for_loop in Hloop.
    apply (for_from_Return (fun _ => False)) in Hloop; [done|].
    intros i s r'. unfold checkRegression_body, with_entry.
    destruct (index _ _) as [p|]; [|done].
    by destruct (checkRegression_step_continues clef e p s) as [s' ->].
Qed.

Lemma generateCard_cursor clef keySig now rand e c e' :
  generateCard clef keySig now rand e = Ok (c, e') ->
  unlockedCount (data e') = unlockedCount (data e).
Proof.
  destruct (KEY_SIGNATURES keySig) as [sigNotes|] eqn:Hsig.
  - destruct (generateCard_pools clef keySig sigNotes now rand e Hsig)
      as (s & -> & (_ & Hu & _) & _).
    by intros [= _ <-].
  - unfold generateCard. cbv zeta. unfold generateCard_body.
    rewrite for_loop_with_entry by lia.
    destruct (take _ _) as [|p l]; cbn [for_of].
    + by intros [= _ <-].
    + unfold generateCard_step at 1. by rewrite Hsig.
Qed.

(** The cursor never goes below its floor. *)
Lemma unlockedCount_floor (e : Engine) : reachable e -> 3 <= unlockedCount (data e).
Proof.
  assert (Hsaved : forall e, reachable e ->
            3 <= unlockedCount (data e)
            /\ forall d, localStorage e = Some d -> 3 <= unlockedCount d).
  { clear e. induction 1 as [|e _ [IH IHs]|e _ _|e id c dt now _ [IH IHs]
                        |e clef b e' _ [IH IHs] Hrun|e clef b e' _ [IH IHs] Hrun
                        |e clef keySig now rand c e' _ [IH IHs] Hrun].
    - split; [done|]. by intros d.
    - unfold constructor, loadData. destruct (localStorage e) as [d|] eqn:Hd; cbn.
      + split; [by apply IHs|]. intros d' [= <-]. by apply IHs.
      + split; [done|]. by intros d'.
    - split; [done|]. by intros d.
    - unfold recordResult.
      destruct c; [destruct (bool_decide (dt <= 2500))|]; cbn;
        (split; [done|]; by intros d [= <-]).
    - destruct (checkProgression_cases clef e) as (b0 & e0 & Hrun0 & _ & Hcases).
      rewrite Hrun in Hrun0. injection Hrun0 as <- <-.
      destruct Hcases as [(_ & _ & _ & Hu & Hl)|(_ & _ & Hu & Hl)].
      + split; [lia|]. rewrite Hl. intros d [= <-]. lia.
      + split; [lia|]. by rewrite Hl.
    - apply checkRegression_cases in Hrun as [[_ ->]|(_ & ? & Hu & _ & Hl)]; [done|].
      split; [lia|]. rewrite Hl. intros d [= <-]. lia.
    - pose proof (generateCard_cursor _ _ _ _ _ _ _ Hrun) as Hu.
      split; [lia|].
      assert (Hls : localStorage e' = localStorage e); [|by rewrite Hls].
      destruct (KEY_SIGNATURES keySig) as [sigNotes|] eqn:Hsig.
      + destruct (generateCard_pools clef keySig sigNotes now rand e Hsig)
          as (s & Hs & (_ & _ & _ & _ & Hl) & _).
        rewrite Hs in Hrun. by injection Hrun as _ <-.
      + revert Hrun. unfold generateCard. cbv zeta. unfold generateCard_body.
        rewrite for_loop_with_entry by lia.
        destruct (take _ _) as [|p l]; cbn [for_of].
        * by intros [= _ <-].
        * unfold generateCard_step at 1. by rewrite Hsig. }
  intros H. by apply Hsaved.
Qed.

Lemma reachable_answer_times k cardId e :
  reachable e -> reachable (answer_times k cardId e).
Proof.
  revert e. induction k as [|k IH]; intros e He; [done|].
  cbn. apply IH. by constructor.
Qed.

Lemma reachable_practise_round clef e :
  reachable e -> reachable (practise_round clef e).
Proof.
  intros He. unfold practise_round.
  set (l := unlocked_prefix clef e). clearbody l.
  assert (H1 : reachable
                 (foldl (fun e p => answer_times 20 (getKey clef (p_n p) (p_o p)) e) e l)).
  { revert e He. induction l as [|p l IH]; intros e He; [done|].
    cbn [foldl]. apply IH. by apply reachable_answer_times. }
  destruct (checkProgression clef _) as [[b e2]|x] eqn:Hrun; [|done].
  by eapply reach_checkProgression.
Qed.

Lemma reachable_treble_learner : reachable treble_learner.
Proof.
  unfold treble_learner. generalize 9%nat. intros k.
  induction k as [|k IH]; [constructor|].
  cbn [Nat.iter]. by apply reachable_practise_round.
Qed.

Lemma treble_learner_cursor : unlockedCount (data treble_learner) = 12.
Proof. by vm_compute. Qed.

(** C6 fails for this learner on the bass clef: the cursor is 12, the bass
    curriculum has 11 entries, none of them with a record (all 11 of the
    unlocked bass entries are lost, more than half), and the regression check
    raises instead of lowering the cursor to 11. *)
Lemma checkRegression_overrun_witness :
  reachable treble_learner
  /\ lost_count "bass" treble_learner = 11
  /\ 3 < unlockedCount (data treble_learner)
  /\ Z.of_nat (length (progression "bass")) < unlockedCount (data treble_learner)
  /\ checkRegression "bass" treble_learner = Raise TypeError.
Proof.
  split; [exact reachable_treble_learner|].
  split; [by vm_compute|].
  assert (H3 : 3 < unlockedCount (data treble_learner)) by (by vm_compute).
  assert (Hp : Z.of_nat (length (progression "bass")) < unlockedCount (data treble_learner))
    by (by vm_compute).
  split; [exact H3|]. split; [exact Hp|].
  exact (checkRegression_overrun "bass" treble_learner H3 Hp).
Defined.

(** The example of the specification: cursor 4, three of the four treble
    notes under the required streak, and the regression check moves the
    cursor to 3, where a second call leaves it. *)
Example checkRegression_example :
  let e := set_data (set_unlockedCount 4)
             (set_data (set_items (fun _ =>
                <["treble-C4" := {| level := 5; nextReview := 0; streak := Some 20 |}]>
                  (<["treble-D4" := {| level := 0; nextReview := 0; streak := Some 3 |}]>
                     (<["treble-E4" := {| level := 0; nextReview := 0; streak := Some 0 |}]> ∅))))
                (constructor None)) in
  let count r := match r with
                 | Ok (b, e') => Some (b, unlockedCount (data e'))
                 | Raise _ => None
                 end in
  count (checkRegression "treble" e) = Some (true, 3)
  /\ count (match checkRegression "treble" e with
            | Ok (_, e') => checkRegression "treble" e'
            | Raise x => Raise x
            end) = Some (false, 3).
Proof. by vm_compute. Qed.

(** ** One cursor for all clefs *)

Lemma unlocked_prefix_cursor clef e e' :
  unlockedCount (data e') = unlockedCount (data e) ->
  unlocked_prefix clef e' = unlocked_prefix clef e.
Proof. unfold unlocked_prefix. by intros ->. Qed.

(** C10: the engine has one [unlockedCount], read by every method for every
    clef.  When [checkProgression] succeeds for one clef, the cursor goes
    from [n] to [n + 1], and for every clef (the one checked or any other)
    the unlocked prefix becomes the first [n + 1] entries of that clef's
    curriculum: it gains that curriculum's entry [n], if there is one.  This
    prefix is the one [generateCard] builds its pools from, and the one both
    checks run over. *)
Theorem checkProgression_shared_cursor (clef : string) (e e' : Engine)
    (Hunlock : checkProgression clef e = Ok (true, e')) :
  let n := unlockedCount (data e) in
  unlockedCount (data e') = n + 1
  /\ forall other : string,
       unlocked_prefix other e' = take (Z.to_nat (n + 1)) (progression other)
       /\ (forall p : ProgressionNote,
             progression other !! Z.to_nat n = Some p ->
             unlocked_prefix other e' = unlocked_prefix other e ++ [p])
       /\ (forall (keySig : string) (sigNotes : list string) (now : Z)
                  (rand : nat -> Q),
             KEY_SIGNATURES keySig = Some sigNotes ->
             exists s : Pools,
               generateCard other keySig now rand e'
               = Ok (select_card other keySig rand s, pool_engine s)
               /\ newItems s ++ candidates s
                  = (make_card other keySig sigNotes
                       <$> entry_pool (never_attempted other e')
                             (take (Z.to_nat (n + 1)) (progression other)))
                    ++ (make_card other keySig sigNotes
                          <$> entry_pool (attempted other e')
                                (take (Z.to_nat (n + 1)) (progression other))))
       /\ (3 < n + 1 -> Z.of_nat (length (progression other)) < n + 1 ->
           checkRegression other e' = Raise TypeError)
       /\ (n + 1 <= Z.of_nat (length (progression other)) ->
           exists (b : bool) (e'' : Engine),
             checkRegression other e' = Ok (b, e'')
             /\ (b = true <-> 3 < n + 1 /\ n + 1 < 2 * lost_count other e'))
       /\ (exists (b : bool) (e'' : Engine),
             checkProgression other e' = Ok (b, e'')
             /\ (b = true <->
                 n + 1 < Z.of_nat (length (progression other))
                 /\ Forall (fun p => mastered other e' p = true)
                           (take (Z.to_nat (n + 1)) (progression other)))).
Proof.
  cbv zeta.
  destruct (checkProgression_cases clef e) as (b0 & e0 & Hrun0 & _ & Hcases).
  rewrite Hunlock in Hrun0. injection Hrun0 as <- <-.
  destruct Hcases as [(_ & Hn & _ & Hu & _)|(? & _)]; [|done].
  split; [done|]. intros other.
  assert (Hpre : unlocked_prefix other e'
                 = take (Z.to_nat (unlockedCount (data e) + 1)) (progression other)).
  { unfold unlocked_prefix. by rewrite Hu. }
  split; [done|]. split; [|split; [|split; [|split]]].
  - intros p Hp. rewrite Hpre. unfold unlocked_prefix.
    replace (Z.to_nat (unlockedCount (data e) + 1))
      with (Datatypes.S (Z.to_nat (unlockedCount (data e)))) by lia.
    by apply take_S_r.
  - intros keySig sigNotes now rand Hsig.
    destruct (generateCard_pools other keySig sigNotes now rand e' Hsig)
      as (s & Hs & _ & HN & _ & _ & HC).
    exists s. split; [done|]. by rewrite HN, HC, Hpre.
  - intros H3 Hpast. unfold checkRegression. cbv zeta.
    rewrite decide_False by lia.
    unfold for_loop, checkRegression_body.
    rewrite for_from_overrun; [done| |done|lia].
    intros p s. apply checkRegression_step_continues.
  - intros Hin.
    destruct (checkRegression_within_curriculum other e') as (b & e'' & Hrun & Hiff & Hb & _);
      [lia|].
    exists b, e''. split; [done|]. rewrite Hb, <- Hiff, Hu. done.
  - destruct (checkProgression_cases other e') as (b & e'' & Hrun & _ & Hcases).
    exists b, e''. split; [done|]. rewrite <- Hpre, <- Hu.
    destruct Hcases as [(-> & ? & ? & _)|(-> & Hwhy & _)].
    + split; [|done]. intros _. split; [lia|done].
    + split; [done|]. intros [? ?]. destruct Hwhy as [?|[?|?]]; [lia|lia|done].
Qed.

(** C10 applies: the treble check succeeds on the store with three mastered
    treble notes, and the bass prefix gains its fourth entry, D3. *)
Lemma checkProgression_shared_cursor_witness :
  checkProgression "treble" three_mastered = Ok (true, after_treble_unlock)
  /\ unlockedCount (data after_treble_unlock) = unlockedCount (data three_mastered) + 1
  /\ unlocked_prefix "bass" three_mastered = [N "C" 3; N "B" 2; N "A" 2]
  /\ unlocked_prefix "bass" after_treble_unlock
     = [N "C" 3; N "B" 2; N "A" 2; N "D" 3].
Proof.
  assert (Hrun : checkProgression "treble" three_mastered
                 = Ok (true, after_treble_unlock)) by (by vm_compute).
  split; [exact Hrun|].
  destruct (checkProgression_shared_cursor "treble" three_mastered _ Hrun)
    as [Hu Hother].
  split; [exact Hu|]. split; [reflexivity|].
  destruct (Hother "bass") as (-> & _). reflexivity.
Defined.

(** ** The pitch detector *)

Import PitchDetector.

Lemma Qltb_lt (x y : Q) : Qltb x y = true <-> (x < y)%Q.
Proof.
  unfold Qltb. rewrite negb_true_iff, <- not_true_iff_false, Qle_bool_iff.
  split; [apply Qnot_le_lt|apply Qlt_not_le].
Qed.

Lemma Qltb_ge (x y : Q) : Qltb x y = false <-> (y <= x)%Q.
Proof. unfold Qltb. by rewrite negb_false_iff, Qle_bool_iff. Qed.

(** The test on the squares is the test on the square root. *)
Lemma sqrt_lt_correct (x t : Q) :
  (0 <= x)%Q -> (0 < t)%Q ->
  sqrt_lt x t = true <-> (sqrt (Q2R x) < Q2R t)%R.
Proof.
  intros Hx Ht. unfold sqrt_lt. rewrite Qltb_lt.
  apply Qle_Rle in Hx. apply Qlt_Rlt in Ht.
  replace (Q2R 0) with 0%R in * by (unfold Q2R; cbn; lra).
  rewrite <- (sqrt_square (Q2R t)) by lra.
  split.
  - intros H%Qlt_Rlt. rewrite Q2R_mult in H. apply sqrt_lt_1_alt. lra.
  - intros H%sqrt_lt_0_alt. apply Rlt_Qlt. by rewrite Q2R_mult.
Qed.

Lemma findFundamentalFrequency_step_inv detectedFreq correlations sampleRate
    minSamples (best : Q * Q) (harmonic : Z) :
  fst best = detectedFreq \/ in_band (fst best) ->
  let best' := findFundamentalFrequency_step detectedFreq correlations sampleRate
                 minSamples best harmonic in
  fst best' = detectedFreq \/ in_band (fst best').
Proof.
  intros Hbest. cbv zeta. unfold findFundamentalFrequency_step.
  destruct best as [bestFundamental bestFundamentalCorrelation].
  destruct (Qltb _ expectedRange_min || Qltb expectedRange_max _) eqn:Hout; [done|].
  apply orb_false_iff in Hout as [Hmin%Qltb_ge Hmax%Qltb_ge].
  destruct (_ && _); [|done].
  destruct (array_get _ _) as [candidateCorrelation|]; [|done].
  destruct (Qltb _ candidateCorrelation); [|done].
  destruct (Qltb _ bestFundamental); [|done].
  right. by split.
Qed.

(** What the harmonic correction gives is the sentinel or in the band. *)
Lemma findFundamentalFrequency_range detectedFreq correlations sampleRate
    minSamples detectedCorrelation :
  sentinel_or_in_band
    (findFundamentalFrequency detectedFreq correlations sampleRate minSamples
       detectedCorrelation).
Proof.
  unfold findFundamentalFrequency.
  destruct (Qltb 450 detectedFreq); [by left|].
  assert (Hinv : forall hs best,
            fst best = detectedFreq \/ in_band (fst best) ->
            fst (foldl (findFundamentalFrequency_step detectedFreq correlations
                          sampleRate minSamples) best hs) = detectedFreq
            \/ in_band (fst (foldl (findFundamentalFrequency_step detectedFreq
                                      correlations sampleRate minSamples) best hs))).
  { induction hs as [|h hs IH]; intros best Hbest; [done|].
    cbn [foldl]. apply IH. by apply findFundamentalFrequency_step_inv. }
  specialize (Hinv harmonics (detectedFreq, detectedCorrelation) (or_introl eq_refl)).
  destruct (foldl _ _ harmonics) as [bestFundamental bestFundamentalCorrelation].
  cbn [fst] in Hinv.
  destruct (Qltb bestFundamental detectedFreq && _) eqn:Hlower.
  - apply andb_true_iff in Hlower as [Hlt%Qltb_lt _].
    destruct Hinv as [->|Hband]; [|by right].
    by apply Qlt_irrefl in Hlt.
  - destruct (Qltb _ expectedRange_min || Qltb expectedRange_max _) eqn:Hout;
      [by left|].
    apply orb_false_iff in Hout as [Hmin%Qltb_ge Hmax%Qltb_ge].
    right. by split.
Qed.

Lemma in_band_positive (f : Q) : in_band f -> Qltb 0 f = true.
Proof.
  intros [Hmin _]. apply Qltb_lt.
  eapply Qlt_le_trans; [|exact Hmin]. reflexivity.
Qed.

Lemma sentinel_negative : Qltb (-1) 0 = true.
Proof. reflexivity. Qed.

Lemma autocorrelate_body_Return normalizedBuffer sampleRate MIN_SAMPLES
    ACTUAL_MAX_SAMPLES (offset : Z) (s : Scan) (r : Q) :
  autocorrelate_body normalizedBuffer sampleRate MIN_SAMPLES ACTUAL_MAX_SAMPLES
    offset s = Return r ->
  sentinel_or_in_band r.
Proof.
  unfold autocorrelate_body.
  destruct (Qltb (bestCorrelation s) _); cbv zeta;
    (destruct (_ && _); [done|]);
    (destruct (_ && _); [|done]);
    (destruct (_ && _); [|done]);
    (destruct (array_get _ _); [|done]);
    (destruct (array_get _ _); [|done]);
    (destruct (array_get _ _); [|done]);
    (destruct (_ || _); [done|]);
    (destruct (Qltb 0 _); [|done]);
    intros [= <-]; apply findFundamentalFrequency_range.
Qed.

Lemma peaks_body_Return correlations sampleRate (offset : Z) (peaks : list Peak)
    (r : Q) :
  peaks_body correlations sampleRate offset peaks = Return r -> False.
Proof.
  unfold peaks_body.
  repeat (destruct (array_get _ _); [|done]).
  by destruct (_ && _).
Qed.

Lemma lowerPeak_body_Return frequency correlations sampleRate MIN_SAMPLES
    bestCorrelation (lowerPeak : Peak) (s : unit) (r : Q) :
  lowerPeak_body frequency correlations sampleRate MIN_SAMPLES bestCorrelation
    lowerPeak s = Return r ->
  sentinel_or_in_band r.
Proof.
  unfold lowerPeak_body. cbv zeta.
  destruct (_ && _); [|done].
  destruct (_ && _).
  - destruct (Qltb _ _); [|done]. destruct (Qltb 0 _); [|done].
    intros [= <-]. apply findFundamentalFrequency_range.
  - destruct (_ && _); [|done].
    destruct (Qltb _ _); [|done]. destruct (Qltb 0 _); [|done].
    intros [= <-]. apply findFundamentalFrequency_range.
Qed.

Lemma in_band_Qeq (f g : Q) : (f == g)%Q -> in_band f -> in_band g.
Proof. intros Heq [Hmin Hmax]. split; by rewrite <- Heq. Qed.

(** Every value [autocorrelate] returns is the sentinel or in the band. *)
Lemma autocorrelate_range (buffer : list Q) (sampleRate r : Q) :
  autocorrelate buffer sampleRate = Ok r -> sentinel_or_in_band r.
Proof.
  unfold autocorrelate. cbv zeta.
  destruct (new_Array _) as [correlations0|]; [|done].
  destruct (_ && sqrt_lt _ _); [intros [= <-]; by left|].
  destruct (Qeq_bool _ 0); [intros [= <-]; by left|].
  destruct (for_loop _ _ (autocorrelate_body _ _ _ _) _) as [s|r1|] eqn:Hscan;
    [| |done].
  2:{ intros [= <-]. unfold for_loop in Hscan.
      eapply (for_from_Return sentinel_or_in_band); [|exact Hscan].
      intros i s r. apply autocorrelate_body_Return. }
  destruct (for_loop _ _ (peaks_body _ _) _) as [peaks|r1|] eqn:Hpeaks; [| |done].
  2:{ exfalso. unfold for_loop in Hpeaks.
      eapply (for_from_Return (fun _ => False)); [|exact Hpeaks].
      intros i s' r'. apply peaks_body_Return. }
  destruct (_ && _); [|intros [= <-]; by left].
  destruct (for_of _ _ _) as [[]|r1|] eqn:Hlower; [| |done].
  2:{ intros [= <-].
      eapply (for_of_Return sentinel_or_in_band); [|exact Hlower].
      intros p u r. apply lowerPeak_body_Return. }
  match goal with |- context [Qltb 0 ?f] =>
    pose proof (findFundamentalFrequency_range
                  (sampleRate / inject_Z (bestOffset s)) (correlations s)
                  sampleRate (Math_floor (sampleRate / 500)) (bestCorrelation s))
      as Hrange;
    change (sentinel_or_in_band f) in Hrange;
    destruct (Qltb 0 f && _) eqn:Hdiff; [by intros [= <-]|];
    destruct (Qltb f 0) eqn:Hneg; [intros [= <-]; by left|];
    intros [= <-]; right;
    destruct Hrange as [Hs|Hband]; [rewrite Hs in Hneg; done|];
    rewrite (in_band_positive _ Hband) in Hdiff; cbn in Hdiff;
    apply negb_false_iff, Qeq_bool_iff in Hdiff;
    by apply (in_band_Qeq f)
  end.
Qed.

(** C9: whatever the buffer and the sample rate, a positive value returned by
    [autocorrelate] lies in the expected fundamental band [60, 400], and a
    value outside the band is never returned: the estimator returns the
    sentinel -1 instead.  The same holds of the harmonic correction, which
    has the last word on every candidate. *)
Theorem autocorrelate_in_band (buffer : list Q) (sampleRate r : Q)
    (Hret : autocorrelate buffer sampleRate = Ok r) :
  ((0 < r)%Q -> in_band r)
  /\ (~ in_band r -> r = (-1)%Q)
  /\ (forall (detectedFreq : Q) (correlations : list (option Q)) (sr : Q)
             (minSamples : Z) (detectedCorrelation : Q),
        let f := findFundamentalFrequency detectedFreq correlations sr
                   minSamples detectedCorrelation in
        f = (-1)%Q \/ in_band f).
Proof.
  apply autocorrelate_range in Hret. split; [|split].
  - intros Hpos. destruct Hret as [->|]; [|done]. discriminate Hpos.
  - intros Hout. by destruct Hret.
  - intros. apply findFundamentalFrequency_range.
Qed.

(** C9 applies: eight samples of period 3 at a sample rate of 1000 give
    1000/3 Hz, in the band. *)
Lemma autocorrelate_in_band_witness :
  autocorrelate [1; 0; 0; 1; 0; 0; 1; 0]%Q 1000 = Ok (1000 # 3)
  /\ (0 < 1000 # 3)%Q
  /\ in_band (1000 # 3).
Proof.
  assert (Hret : autocorrelate [1; 0; 0; 1; 0; 0; 1; 0]%Q 1000 = Ok (1000 # 3))
    by reflexivity.
  split; [exact Hret|]. split; [reflexivity|].
  exact (proj1 (autocorrelate_in_band _ _ _ Hret) eq_refl).
Defined.

(** Out of the band: a detected 58 Hz with no accepted sub-harmonic is
    answered by the sentinel, and so is anything above 450 Hz. *)
Example findFundamentalFrequency_out_of_band :
  findFundamentalFrequency 58 [] 44100 88 0.9 = (-1)%Q
  /\ findFundamentalFrequency 460 [] 44100 88 0.9 = (-1)%Q.
Proof. by vm_compute. Qed.

(** ** frequencyToNote *)

Lemma Math_round_R_0 : Math_round_R 0 = 0.
Proof.
  unfold Math_round_R, Int_part.
  rewrite <- (tech_up (0 + / 2) 1) by lra. reflexivity.
Qed.

(** 440 Hz is no semitone away from A4. *)
Lemma roundedSemitones_440 : roundedSemitones 440 = 0.
Proof.
  unfold roundedSemitones, Math_log2.
  replace (Q2R (440 / A4)) with 1%R.
  2:{ unfold Q2R. change (Qnum (440 / A4)) with 440%Z.
      change (Z.pos (Qden (440 / A4))) with 440%Z. lra. }
  rewrite ln_1. replace (12 * (0 / ln 2))%R with 0%R by (unfold Rdiv; ring).
  apply Math_round_R_0.
Qed.

(** C1: the note mapper gives A in octave 4 for 440 Hz. *)
Theorem frequencyToNote_440 :
  PitchDetector.frequencyToNote 440
  = Some {| note := "A"; octave := 4; frequency := 440; accidental := None |}.
Proof.
  unfold PitchDetector.frequencyToNote.
  change (Qle_bool 440 0) with false. cbv zeta.
  rewrite roundedSemitones_440. reflexivity.
Qed.

(** The first revision of the mapper put the same input one octave higher:
    its octave is [4 + floor((noteNumber + 9) / 12)] with [noteNumber = 9]. *)
Lemma frequencyToNote_440_rev1 :
  PitchDetectorRev1.frequencyToNote 440
  = Some {| note := "A"; octave := 5; frequency := 440; accidental := None |}.
Proof.
  unfold PitchDetectorRev1.frequencyToNote.
  change (Qle_bool 440 0) with false. cbv zeta.
  rewrite roundedSemitones_440. reflexivity.
Qed.

(** A frequency that is not positive has no note. *)
Lemma frequencyToNote_nonpositive (f : Q) :
  (f <= 0)%Q -> PitchDetector.frequencyToNote f = None.
Proof.
  intros Hf. unfold PitchDetector.frequencyToNote.
  by rewrite (proj2 (Qle_bool_iff f 0) Hf).
Qed.

(** * Further properties of the engine *)

(** ** What the methods write *)

Lemma ensure_streak_ok (it : Item) : record_ok it -> ensure_streak it = it.
Proof. intros [(s & Hs & _) _]. unfold ensure_streak. by rewrite Hs. Qed.

Lemma normalised_ok (m m' : gmap string Item) :
  (forall id it, m !! id = Some it -> record_ok it) ->
  normalised m m' -> m' = m.
Proof.
  intros Hok Hn. apply map_eq. intros id.
  destruct (Hn id) as [->| ->]; [done|].
  destruct (m !! id) as [it|] eqn:Hit; [|done].
  cbn. by rewrite (ensure_streak_ok it (Hok id it Hit)).
Qed.

Lemma same_engine_ok (e e' : Engine) :
  data_ok (data e) -> same_engine e e' -> e' = e.
Proof.
  intros [Hok _] (Hn & Hu & Hs & Hr & Hl).
  apply (normalised_ok _ _ Hok) in Hn.
  destruct e as [[m u s r] l], e' as [[m' u' s' r'] l']. cbn in *. by subst.
Qed.

(** On well-formed data the unlock check writes nothing unless it unlocks,
    and then it only moves the cursor and saves. *)
Lemma checkProgression_effect (clef : string) (e : Engine) (b : bool) (e' : Engine) :
  data_ok (data e) ->
  checkProgression clef e = Ok (b, e') ->
  (b = false /\ e' = e)
  \/ (b = true
      /\ e' = saveData (set_data (set_unlockedCount (unlockedCount (data e) + 1)) e)).
Proof.
  intros Hok. unfold checkProgression. cbv zeta.
  destruct (decide _) as [Hfull|Hroom]; [intros [= <- <-]; by left|].
  unfold checkProgression_body. rewrite for_loop_with_entry by lia.
  pose proof (checkProgression_loop clef e
                (take (Z.to_nat (unlockedCount (data e))) (progression clef)) e 0 0
                (same_engine_refl e)) as Hloop.
  destruct (for_of _ _ _) as [[[e1 r] t]|[b1 e1]|]; [| |done].
  - destruct Hloop as (Hsame & _ & _). apply (same_engine_ok e e1 Hok) in Hsame as ->.
    destruct (decide _); intros [= <- <-]; [by right|by left].
  - destruct Hloop as (-> & Hsame & _).
    apply (same_engine_ok e e1 Hok) in Hsame as ->.
    intros [= <- <-]. by left.
Qed.

(** The regression check writes nothing unless it lowers the cursor, and
    then it only moves the cursor and saves. *)
Lemma checkRegression_effect (clef : string) (e : Engine) (b : bool) (e' : Engine) :
  checkRegression clef e = Ok (b, e') ->
  (b = false /\ e' = e)
  \/ (b = true /\ 3 < unlockedCount (data e)
      /\ e' = saveData (set_data (set_unlockedCount (unlockedCount (data e) - 1)) e)).
Proof.
  unfold checkRegression. cbv zeta.
  destruct (decide (unlockedCount (data e) <= 3)) as [Hfloor|Habove].
  { intros [= <- <-]. by left. }
  destruct (for_loop _ _ _ _) as [[lo t]|r|x] eqn:Hloop; [| |done].
  - destruct (_ && _).
    + intros [= <- <-]. right. split; [done|]. split; [lia|].
      by rewrite Z.max_r by lia.
    + intros [= <- <-]. by left.
  - exfalso. unfold for_loop in Hloop.
    apply (for_from_Return (fun _ => False)) in Hloop; [done|].
    intros i s r'. unfold checkRegression_body, with_entry.
    destruct (index _ _) as [p|]; [|done].
    by destruct (checkRegression_step_continues clef e p s) as [s' ->].
Qed.

Lemma generateCard_effect clef keySig now rand (e : Engine) c (e' : Engine) :
  data_ok (data e) ->
  generateCard clef keySig now rand e = Ok (c, e') -> e' = e.
Proof.
  intros Hok.
  destruct (KEY_SIGNATURES keySig) as [sigNotes|] eqn:Hsig.
  - destruct (generateCard_pools clef keySig sigNotes now rand e Hsig)
      as (s & -> & Hsame & _).
    intros [= _ <-]. by apply same_engine_ok.
  - unfold generateCard. cbv zeta. unfold generateCard_body.
    rewrite for_loop_with_entry by lia.
    destruct (take _ _) as [|p l]; cbn [for_of].
    + by intros [= _ <-].
    + unfold generateCard_step at 1. by rewrite Hsig.
Qed.

Lemma recordResult_data_ok cardId isCorrect timeDelta now (e : Engine) :
  data_ok (data e) ->
  data_ok (data (snd (recordResult cardId isCorrect timeDelta now e))).
Proof.
  intros (Hrec & Hcur & Hst & Hct & Hlen & Htot).
  assert (Hprior : record_ok (ensure_streak (default new_item (items (data e) !! cardId)))).
  { destruct (items (data e) !! cardId) as [it|] eqn:Hit; cbn.
    - rewrite ensure_streak_ok; by eapply Hrec.
    - split; [exists 0; by split|]. cbn. lia. }
  destruct Hprior as [(s0 & Hs0 & Hs0pos) Hlvl].
  assert (Hso : streak_or_0 (ensure_streak (default new_item (items (data e) !! cardId))) = s0).
  { unfold streak_or_0. by rewrite Hs0. }
  assert (Hrecent :
    let recent := recentAttempts (data e) ++ [isCorrect] in
    (length (if decide (50 < length recent)%nat then tail recent else recent) <= 50)%nat
    /\ Z.of_nat (length (if decide (50 < length recent)%nat then tail recent else recent))
       <= stats_total (stats (data e)) + 1).
  { cbv zeta. destruct (decide _) as [Hover|Hfit].
    - destruct (recentAttempts (data e)) as [|a l]; cbn in *;
        rewrite ?length_app in *; cbn in *; lia.
    - rewrite length_app in *. cbn in *. lia. }
  destruct Hrecent as [Hr1 Hr2].
  unfold recordResult.
  unfold data_ok.
  destruct isCorrect; [destruct (bool_decide (timeDelta <= 2500))|]; simpl;
    (split; [|repeat split; try done; lia]);
    intros id it; rewrite lookup_insert;
    (destruct (decide (cardId = id)) as [_|_]; [|intros Hit; by eapply Hrec]);
    intros [= <-]; (split; [eexists; split; [done|lia]|]); simpl; lia.
Qed.

(** What every engine of a session satisfies. *)
Lemma reachable_ok (e : Engine) : reachable e -> data_ok (data e) /\ in_sync e.
Proof.
  assert (Hinit : data (loadData None) = initialData).
  { unfold loadData, set_items. cbn. by rewrite fmap_empty. }
  assert (Hinit_ok : data_ok initialData).
  { split; [intros k it; cbn; by rewrite lookup_empty|]. cbn. repeat split; lia. }
  assert (Hnew : data_ok (data (loadData None)) /\ in_sync (loadData None)).
  { rewrite Hinit. split; [done|]. right. by rewrite Hinit. }
  induction 1 as [|e _ [IH IHs]|e _ _|e cid c dt now _ [IH IHs]
                  |e clef b e' _ [IH IHs] Hrun|e clef b e' _ [IH IHs] Hrun
                  |e clef keySig now rand c e' _ [IH IHs] Hrun].
  - exact Hnew.
  - destruct IHs as [Hs|[Hs Hd]]; unfold constructor; rewrite Hs; [|exact Hnew].
    assert (Hload : data (loadData (Some (data e))) = data e).
    { unfold loadData, set_items. cbn.
      destruct IH as [Hrec _]. destruct (data e) as [m u s r]. cbn in *. f_equal.
      apply map_eq. intros id. rewrite lookup_fmap.
      destruct (m !! id) as [it|] eqn:Hit; [|done].
      cbn. by rewrite (ensure_streak_ok it (Hrec id it Hit)). }
    split; [by rewrite Hload|]. left. by rewrite Hload.
  - exact Hnew.
  - split; [by apply recordResult_data_ok|]. left.
    unfold recordResult.
    by destruct c; [destruct (bool_decide (dt <= 2500))|].
  - apply (checkProgression_effect clef e b e' IH) in Hrun as [[_ ->]|[_ ->]]; [done|].
    split; [|by left].
    destruct IH as (? & ? & ? & ? & ? & ?). split; [done|]. cbn. lia.
  - apply checkRegression_effect in Hrun as [[_ ->]|(_ & ? & ->)]; [done|].
    split; [|by left].
    destruct IH as (? & ? & ? & ? & ? & ?). split; [done|]. cbn. lia.
  - by apply (generateCard_effect _ _ _ _ e c e' IH) in Hrun as ->.
Qed.

(** ** Invariants of a session *)

(** X1: in every engine a session reaches, every mastery record has a streak
    that is present and not negative, and a level of at most 5. *)
Theorem reachable_records (e : Engine) (cardId : string) (it : Item) :
  reachable e -> getItem cardId e = Some it ->
  (exists s : Z, streak it = Some s /\ 0 <= s) /\ (level it <= 5)%nat.
Proof.
  intros [[Hrec _] _]%reachable_ok Hit. exact (Hrec cardId it Hit).
Qed.

Lemma reachable_first_answer : reachable first_answer.
Proof. apply reach_recordResult, reach_new. Qed.

Lemma reachable_records_witness :
  reachable first_answer
  /\ getItem "treble-C4" first_answer
     = Some {| level := 1; nextReview := 300000; streak := Some 1 |}
  /\ (exists s : Z, Some 1 = Some s /\ 0 <= s) /\ (1 <= 5)%nat.
Proof.
  split; [exact reachable_first_answer|]. split; [reflexivity|].
  exact (reachable_records first_answer "treble-C4" _ reachable_first_answer eq_refl).
Defined.

(** X2: in every engine a session reaches, the global counters are ordered,
    [0 <= stats.streak <= stats.correct <= stats.total], and
    [recentAttempts] holds at most 50 results, never more than the number of
    answers. *)
Theorem reachable_stats (e : Engine) :
  reachable e ->
  0 <= stats_streak (stats (data e)) <= stats_correct (stats (data e))
  /\ stats_correct (stats (data e)) <= stats_total (stats (data e))
  /\ (length (recentAttempts (data e)) <= 50)%nat
  /\ Z.of_nat (length (recentAttempts (data e))) <= stats_total (stats (data e)).
Proof. intros [(_ & _ & H) _]%reachable_ok. exact H. Qed.

Lemma reachable_stats_witness :
  reachable treble_learner
  /\ stats_total (stats (data treble_learner)) = 1260
  /\ length (recentAttempts (data treble_learner)) = 50%nat
  /\ 0 <= stats_streak (stats (data treble_learner))
       <= stats_correct (stats (data treble_learner)).
Proof.
  split; [exact reachable_treble_learner|].
  split; [by vm_compute|]. split; [by vm_compute|].
  exact (proj1 (reachable_stats treble_learner reachable_treble_learner)).
Defined.

(** X3: the store is always in step with the engine: constructing a new
    engine from the store of any engine a session reaches (a page reload)
    gives the same data. *)
Theorem reload_keeps_data (e : Engine) :
  reachable e -> data (constructor (localStorage e)) = data e.
Proof.
  intros [[Hrec _] Hsync]%reachable_ok.
  assert (Hload : data (loadData (Some (data e))) = data e).
  { unfold loadData, set_items. cbn.
    destruct (data e) as [m u s r]. cbn in *. f_equal.
    apply map_eq. intros id. rewrite lookup_fmap.
    destruct (m !! id) as [it|] eqn:Hit; [|done].
    cbn. by rewrite (ensure_streak_ok it (Hrec id it Hit)). }
  unfold constructor. destruct Hsync as [->|[-> ->]]; [done|].
  unfold loadData, set_items. cbn. by rewrite fmap_empty.
Qed.

Lemma reload_keeps_data_witness :
  reachable treble_learner
  /\ data (constructor (localStorage treble_learner)) = data treble_learner.
Proof.
  split; [exact reachable_treble_learner|].
  exact (reload_keeps_data treble_learner reachable_treble_learner).
Defined.

(** X4: on the engines of a session [generateCard] only reads: the engine
    after the call is the engine before it. *)
Theorem generateCard_reads_only (clef keySig : string) (now : Z)
    (rand : nat -> Q) (e : Engine) (c : option Card) (e' : Engine) :
  reachable e ->
  generateCard clef keySig now rand e = Ok (c, e') ->
  e' = e.
Proof.
  intros [Hok _]%reachable_ok. by apply generateCard_effect.
Qed.

Lemma generateCard_reads_only_witness :
  exists (c : option Card) (e' : Engine),
    reachable first_answer
    /\ generateCard "treble" "G" 60000 draws_high_low first_answer = Ok (c, e')
    /\ e' = first_answer.
Proof.
  exists (Some (make_card "treble" "G" ["F#"] (N "D" 4))), first_answer.
  assert (Hrun : generateCard "treble" "G" 60000 draws_high_low first_answer
                 = Ok (Some (make_card "treble" "G" ["F#"] (N "D" 4)), first_answer))
    by (by vm_compute).
  split; [exact reachable_first_answer|]. split; [exact Hrun|].
  exact (generateCard_reads_only _ _ _ _ _ _ _ reachable_first_answer Hrun).
Defined.

(** X5: on the engines of a session the unlock check that does not unlock
    changes nothing, and the one that unlocks changes only the cursor and
    saves; the regression check likewise changes nothing or lowers the
    cursor by one and saves. *)
Theorem checks_write_only_the_cursor (clef : string) (e : Engine) (b : bool)
    (e' : Engine) :
  reachable e ->
  (checkProgression clef e = Ok (b, e') ->
   e' = if b
        then saveData (set_data (set_unlockedCount (unlockedCount (data e) + 1)) e)
        else e)
  /\ (checkRegression clef e = Ok (b, e') ->
      e' = if b
           then saveData (set_data (set_unlockedCount (unlockedCount (data e) - 1)) e)
           else e).
Proof.
  intros [Hok _]%reachable_ok. split.
  - intros [[-> ->]|[-> ->]]%checkProgression_effect; done.
  - intros [[-> ->]|(-> & _ & ->)]%checkRegression_effect; done.
Qed.

Lemma checks_write_only_the_cursor_witness :
  exists (b : bool) (e' : Engine),
    reachable first_answer
    /\ checkProgression "treble" first_answer = Ok (b, e')
    /\ e' = if b
            then saveData (set_data (set_unlockedCount
                                       (unlockedCount (data first_answer) + 1))
                                    first_answer)
            else first_answer.
Proof.
  exists false, first_answer.
  assert (Hp : checkProgression "treble" first_answer = Ok (false, first_answer))
    by (by vm_compute).
  split; [exact reachable_first_answer|]. split; [exact Hp|].
  exact (proj1 (checks_write_only_the_cursor "treble" first_answer false
                  first_answer reachable_first_answer) Hp).
Defined.

(** ** The cursor *)

Lemma length_progression clef :
  (length (progression clef) = 14 \/ length (progression clef) = 11)%nat.
Proof.
  unfold progression, PROGRESSION.
  repeat case_decide; cbn; auto.
Qed.

Lemma cursor_max (e : Engine) : reachable e -> unlockedCount (data e) <= 14.
Proof.
  induction 1 as [|e He IH|e _ _|e id c dt now _ IH
                  |e clef b e' _ IH Hrun|e clef b e' _ IH Hrun
                  |e clef keySig now rand c e' _ IH Hrun].
  - done.
  - apply reachable_ok in He as [_ [->|[-> _]]]; [|done]. exact IH.
  - done.
  - unfold recordResult.
    destruct c; [destruct (bool_decide (dt <= 2500))|]; cbn; exact IH.
  - destruct (checkProgression_cases clef e) as (b0 & e0 & Hrun0 & _ & Hcases).
    rewrite Hrun in Hrun0. injection Hrun0 as <- <-.
    pose proof (length_progression clef).
    destruct Hcases as [(_ & ? & _ & Hu & _)|(_ & _ & Hu & _)]; lia.
  - apply checkRegression_cases in Hrun as [[_ ->]|(_ & ? & Hu & _)]; lia.
  - rewrite (generateCard_cursor _ _ _ _ _ _ _ Hrun). exact IH.
Qed.

(** X6: in a session the cursor stays between 3 and 14, the length of the
    treble curriculum, whatever clef the checks are run on; so the first
    three notes of every clef are unlocked at all times. *)
Theorem cursor_bounds (clef : string) (e : Engine) :
  reachable e ->
  3 <= unlockedCount (data e) <= Z.of_nat (length (progression "treble"))
  /\ take 3 (unlocked_prefix clef e) = take 3 (progression clef).
Proof.
  intros He. pose proof (cursor_max e He) as Hmax.
  apply reachable_ok in He as [(_ & Hmin & _) _].
  split; [split; [exact Hmin|exact Hmax]|].
  unfold unlocked_prefix. rewrite take_take. f_equal. lia.
Qed.

Lemma cursor_bounds_witness :
  reachable treble_learner
  /\ unlockedCount (data treble_learner) = 12
  /\ take 3 (unlocked_prefix "bass" treble_learner) = [N "C" 3; N "B" 2; N "A" 2].
Proof.
  split; [exact reachable_treble_learner|]. split; [by vm_compute|].
  exact (proj2 (cursor_bounds "bass" treble_learner reachable_treble_learner)).
Defined.

(** ** getStats *)

Lemma getStats_body_step e (i : Z) p (acc : Z) :
  0 <= i -> PROGRESSION_treble !! Z.to_nat i = Some p ->
  getStats_body e i acc
  = Continue (acc + if mastered "treble" e p then 1 else 0).
Proof.
  intros Hi Hp. unfold getStats_body. rewrite index_lookup by done. rewrite Hp.
  cbv zeta. unfold mastered, record_of.
  destruct (items (data e) !! getKey "treble" (p_n p) (p_o p)) as [it|].
  - destruct (decide (REQUIRED_STREAK_PER_NOTE <= streak_or_0 it)) as [Hr|Hr].
    + by rewrite bool_decide_eq_true_2.
    + rewrite bool_decide_eq_false_2 by done. f_equal. lia.
  - f_equal. lia.
Qed.

Lemma getStats_loop e (k : nat) : forall (i acc : Z),
  0 <= i -> (Z.to_nat i + k <= length PROGRESSION_treble)%nat ->
  for_from i k (getStats_body e) acc
  = Continue (acc + Z.of_nat (length (entry_pool (mastered "treble" e)
                                        (take k (drop (Z.to_nat i) PROGRESSION_treble))))).
Proof.
  induction k as [|k IH]; intros i acc Hi Hlen.
  { rewrite take_0. cbn [for_from]. f_equal.
    change (entry_pool (mastered "treble" e) []) with (@nil ProgressionNote).
    cbn [length]. lia. }
  cbn [for_from].
  destruct (PROGRESSION_treble !! Z.to_nat i) as [p|] eqn:Hp;
    [|apply lookup_ge_None in Hp; lia].
  rewrite (getStats_body_step e i p acc Hi Hp).
  rewrite IH by lia. rewrite (drop_S _ _ _ Hp). cbn [take].
  replace (Z.to_nat (i + 1)) with (Datatypes.S (Z.to_nat i)) by lia.
  rewrite entry_pool_cons.
  destruct (mastered "treble" e p); cbn [length]; f_equal; lia.
Qed.

Lemma getStats_run (e : Engine) :
  getStats e
  = Ok {| view_unlocked := unlockedCount (data e);
          view_streak := stats_streak (stats (data e));
          view_totalNotes := 14;
          view_notesReady :=
            Z.of_nat (length (entry_pool (mastered "treble" e)
                                (unlocked_prefix "treble" e)));
          view_requiredStreak := 20 |}.
Proof.
  unfold getStats. cbv zeta. unfold for_loop.
  rewrite getStats_loop by (cbn; lia).
  rewrite Z.sub_0_r. change (Z.to_nat 0) with 0%nat. rewrite drop_0.
  rewrite take_limit. reflexivity.
Qed.

(** X7: [getStats] never throws, whatever the cursor is; its [notesReady] is
    the number of entries of the unlocked treble prefix whose record has a
    streak of at least 20, which is at most the cursor and at most 14; the
    other fields are the cursor, the global streak, 14 and 20. *)
Theorem getStats_counts_mastered (e : Engine) :
  exists v : StatsView,
    getStats e = Ok v
    /\ view_notesReady v
       = Z.of_nat (length (entry_pool (mastered "treble" e) (unlocked_prefix "treble" e)))
    /\ 0 <= view_notesReady v <= Z.min (Z.max 0 (unlockedCount (data e))) 14
    /\ view_unlocked v = unlockedCount (data e)
    /\ view_streak v = stats_streak (stats (data e))
    /\ view_totalNotes v = 14
    /\ view_requiredStreak v = 20.
Proof.
  eexists. split; [apply getStats_run|].
  cbn [view_notesReady view_unlocked view_streak view_totalNotes view_requiredStreak].
  split; [done|]. split; [|done].
  pose proof (length_filter (fun p => mastered "treble" e p = true)
                (unlocked_prefix "treble" e)) as Hle.
  unfold unlocked_prefix in Hle at 2. rewrite length_take in Hle.
  change (length (progression "treble")) with 14%nat in Hle.
  unfold entry_pool. lia.
Qed.

(** X8: [getStats] and the unlock check agree on the treble clef: with the
    cursor inside the curriculum, [checkProgression('treble')] unlocks the
    next note exactly when [getStats] reports as many ready notes as there
    are unlocked ones. *)
Theorem getStats_ready_iff_unlock (e : Engine) (v : StatsView) :
  0 < unlockedCount (data e) < 14 ->
  getStats e = Ok v ->
  (view_notesReady v = view_unlocked v
   <-> exists e', checkProgression "treble" e = Ok (true, e')).
Proof.
  intros Hn Hv.
  rewrite getStats_run in Hv. injection Hv as <-.
  cbn [view_notesReady view_unlocked].
  pose proof (filter_length_all (mastered "treble" e) (unlocked_prefix "treble" e))
    as Hall.
  pose proof (length_unlocked_prefix "treble" e) as Hlen.
  change (Z.of_nat (length (progression "treble"))) with 14 in Hlen.
  destruct (checkProgression_cases "treble" e) as (b & e' & Hrun & _ & Hcases).
  unfold entry_pool. split.
  - intros Heq. destruct Hcases as [(-> & _)|(_ & [?|[Hfull|Hnot]] & _)].
    + by exists e'.
    + lia.
    + change (Z.of_nat (length (progression "treble"))) with 14 in Hfull. lia.
    + exfalso. apply Hnot, Hall. lia.
  - intros (e'' & Hrun'). rewrite Hrun in Hrun'. injection Hrun' as -> _.
    destruct Hcases as [(_ & _ & HF & _)|(? & _)]; [|done].
    apply Hall in HF. lia.
Qed.

Lemma getStats_ready_iff_unlock_witness :
  exists v : StatsView,
    0 < unlockedCount (data first_answer) < 14
    /\ getStats first_answer = Ok v
    /\ (view_notesReady v = view_unlocked v
        <-> exists e', checkProgression "treble" first_answer = Ok (true, e')).
Proof.
  eexists. split; [by vm_compute|].
  assert (Hv : getStats first_answer
               = Ok {| view_unlocked := 3; view_streak := 1; view_totalNotes := 14;
                       view_notesReady := 0; view_requiredStreak := 20 |})
    by (by vm_compute).
  split; [exact Hv|].
  apply (getStats_ready_iff_unlock first_answer _); [by vm_compute|exact Hv].
Defined.

(** ** When the methods throw *)

(** X9: [generateCard] throws exactly when the key signature is not one of
    the table and at least one note is unlocked; what it throws is a
    [TypeError] (from [sigNotes.forEach] on [undefined]). *)
Theorem generateCard_raises_iff (clef keySig : string) (now : Z)
    (rand : nat -> Q) (e : Engine) (x : Exception) :
  generateCard clef keySig now rand e = Raise x
  <-> x = TypeError /\ KEY_SIGNATURES keySig = None /\ 0 < unlockedCount (data e).
Proof.
  destruct (KEY_SIGNATURES keySig) as [sigNotes|] eqn:Hsig.
  { destruct (generateCard_pools clef keySig sigNotes now rand e Hsig)
      as (s & -> & _).
    split; [done|]. by intros (_ & ? & _). }
  unfold generateCard. cbv zeta. unfold generateCard_body.
  rewrite for_loop_with_entry by lia. rewrite take_limit.
  destruct (decide (0 < unlockedCount (data e))) as [Hpos|Hneg].
  - destruct (progression clef) as [|p l] eqn:Hprog.
    { pose proof (length_progression clef) as Hlen. rewrite Hprog in Hlen.
      cbn in Hlen. lia. }
    destruct (Z.to_nat (unlockedCount (data e))) as [|k] eqn:Hk; [lia|].
    cbn [take for_of]. unfold generateCard_step at 1. rewrite Hsig.
    split; [by intros [= <-]|by intros (-> & _)].
  - replace (Z.to_nat (unlockedCount (data e))) with 0%nat by lia.
    rewrite take_0. cbn [for_of]. split; [done|]. intros (_ & _ & ?). lia.
Qed.

(** X10: [checkRegression] throws exactly when the cursor is above 3 and past
    the end of the clef's curriculum, and what it throws is a [TypeError];
    in a session this cannot happen on the treble clef. *)
Theorem checkRegression_raises_iff (clef : string) (e : Engine) (x : Exception) :
  (checkRegression clef e = Raise x
   <-> x = TypeError /\ 3 < unlockedCount (data e)
       /\ Z.of_nat (length (progression clef)) < unlockedCount (data e))
  /\ (reachable e -> checkRegression "treble" e <> Raise x).
Proof.
  assert (Hiff : forall clef,
             checkRegression clef e = Raise x
             <-> x = TypeError /\ 3 < unlockedCount (data e)
                 /\ Z.of_nat (length (progression clef)) < unlockedCount (data e)).
  { clear clef. intros clef. split.
    - intros Hrun.
      destruct (decide (unlockedCount (data e) <= 3)) as [Hfloor|Habove].
      { by rewrite checkRegression_floor in Hrun. }
      destruct (decide (unlockedCount (data e) <= Z.of_nat (length (progression clef))))
        as [Hin|Hpast].
      { destruct (checkRegression_within_curriculum clef e Hin) as (b & e' & Hok & _).
        by rewrite Hok in Hrun. }
      revert Hrun. unfold checkRegression. cbv zeta. rewrite decide_False by lia.
      unfold for_loop, checkRegression_body.
      rewrite for_from_overrun; [|intros p s; apply checkRegression_step_continues
                                 |done|lia].
      intros [= <-]. repeat split; lia.
    - intros (-> & Habove & Hpast).
      unfold checkRegression. cbv zeta. rewrite decide_False by lia.
      unfold for_loop, checkRegression_body.
      rewrite for_from_overrun; [done| |done|lia].
      intros p s. apply checkRegression_step_continues. }
  split; [apply Hiff|].
  intros He Hrun. apply cursor_max in He. apply Hiff in Hrun as (_ & _ & Hpast).
  change (Z.of_nat (length (progression "treble"))) with 14 in Hpast. lia.
Qed.

Lemma checkRegression_raises_iff_witness :
  reachable treble_learner
  /\ checkRegression "treble" treble_learner <> Raise TypeError.
Proof.
  split; [exact reachable_treble_learner|].
  exact (proj2 (checkRegression_raises_iff "treble" treble_learner TypeError)
           reachable_treble_learner).
Defined.

(** ** Answers and the unlock check together *)

Lemma mastered_streak_of clef e p :
  mastered clef e p
  = bool_decide (REQUIRED_STREAK_PER_NOTE <= streak_of (getKey clef (p_n p) (p_o p)) e).
Proof.
  unfold mastered, record_of, streak_of, getItem.
  by destruct (items (data e) !! getKey clef (p_n p) (p_o p)).
Qed.

Lemma recordResult_unlockedCount cardId isCorrect timeDelta now e :
  unlockedCount (data (snd (recordResult cardId isCorrect timeDelta now e)))
  = unlockedCount (data e).
Proof.
  unfold recordResult.
  by destruct isCorrect; [destruct (bool_decide (timeDelta <= 2500))|].
Qed.

Lemma streak_of_recordResult cardId id isCorrect timeDelta now e :
  streak_of id (snd (recordResult cardId isCorrect timeDelta now e))
  = if decide (cardId = id)
    then if isCorrect then streak_of cardId e + 1 else 0
    else streak_of id e.
Proof.
  unfold streak_of, getItem, recordResult.
  destruct (decide (cardId = id)) as [<-|Hne].
  - destruct isCorrect; [destruct (bool_decide (timeDelta <= 2500))|];
      cbn; rewrite lookup_insert_eq; cbn; try done;
      rewrite streak_or_0_ensure; by destruct (items (data e) !! cardId).
  - destruct isCorrect; [destruct (bool_decide (timeDelta <= 2500))|];
      cbn; by rewrite lookup_insert_ne.
Qed.

Lemma streak_of_nonneg id e : data_ok (data e) -> 0 <= streak_of id e.
Proof.
  intros [Hrec _]. unfold streak_of, getItem.
  destruct (items (data e) !! id) as [it|] eqn:Hit; [|done].
  destruct (Hrec id it Hit) as [(s & Hs & Hpos) _]. cbn. unfold streak_or_0.
  by rewrite Hs.
Qed.

Lemma answer_times_streak (k : nat) cardId id : forall e,
  streak_of id (answer_times k cardId e)
  = (if decide (cardId = id) then streak_of cardId e + Z.of_nat k else streak_of id e)
  /\ unlockedCount (data (answer_times k cardId e)) = unlockedCount (data e).
Proof.
  induction k as [|k IH]; intros e.
  { cbn. split; [|done]. case_decide; subst; lia. }
  cbn [answer_times]. destruct (IH (snd (recordResult cardId true 1000 0 e))) as [-> ->].
  rewrite recordResult_unlockedCount. split; [|done].
  rewrite !streak_of_recordResult.
  case_decide; subst; [rewrite decide_True by done|]; lia.
Qed.

Lemma practise_streak clef (l : list ProgressionNote) : forall e id,
  streak_of id e <= streak_of id (practise clef l e)
  /\ ((exists p, p ∈ l /\ id = getKey clef (p_n p) (p_o p)) ->
      streak_of id e + 20 <= streak_of id (practise clef l e))
  /\ unlockedCount (data (practise clef l e)) = unlockedCount (data e).
Proof.
  induction l as [|p l IH]; intros e id.
  { cbn. split; [lia|]. split; [|done]. intros (p & Hp & _). by apply elem_of_nil in Hp. }
  change (practise clef (p :: l) e)
    with (practise clef l (answer_times 20 (getKey clef (p_n p) (p_o p)) e)).
  set (e2 := answer_times 20 (getKey clef (p_n p) (p_o p)) e).
  destruct (IH e2 id) as (Hle & Hin & ->).
  destruct (answer_times_streak 20 (getKey clef (p_n p) (p_o p)) id e) as [Hs Hu].
  fold e2 in Hs, Hu. rewrite Hu. split; [|split; [|done]].
  - case_decide; subst; lia.
  - intros (q & [->|Hq]%elem_of_cons & ->).
    + rewrite decide_True in Hs by done. lia.
    + assert (streak_of (getKey clef (p_n q) (p_o q)) e2 + 20
              <= streak_of (getKey clef (p_n q) (p_o q)) (practise clef l e2))
        by (apply Hin; eauto).
      destruct (decide (getKey clef (p_n p) (p_o p) = getKey clef (p_n q) (p_o q)))
        as [Heq|_]; [rewrite Heq in Hs|]; lia.
Qed.

(** X11: a wrong answer on an unlocked note blocks the next unlock: the
    unlock check that follows it returns [false] and leaves the engine as
    the answer left it. *)
Theorem wrong_answer_blocks_unlock (clef : string) (e : Engine)
    (p : ProgressionNote) (timeDelta now : Z) :
  reachable e ->
  p ∈ unlocked_prefix clef e ->
  checkProgression clef
    (snd (recordResult (getKey clef (p_n p) (p_o p)) false timeDelta now e))
  = Ok (false, snd (recordResult (getKey clef (p_n p) (p_o p)) false timeDelta now e)).
Proof.
  intros He Hp.
  set (e1 := snd (recordResult (getKey clef (p_n p) (p_o p)) false timeDelta now e)).
  assert (He1 : reachable e1) by (by apply reach_recordResult).
  apply reachable_ok in He1 as [Hok _].
  destruct (checkProgression_cases clef e1) as (b & e' & Hrun & _ & Hcases).
  destruct Hcases as [(_ & _ & HF & _)|(-> & _)].
  - exfalso. rewrite Forall_forall in HF. specialize (HF p).
    unfold unlocked_prefix in HF. unfold e1 in HF at 1.
    rewrite recordResult_unlockedCount in HF. specialize (HF Hp).
    rewrite mastered_streak_of in HF. unfold e1 in HF.
    rewrite streak_of_recordResult, decide_True in HF by done. done.
  - rewrite Hrun. by apply checkProgression_effect in Hrun as [[_ ->]|[? _]].
Qed.

Lemma wrong_answer_blocks_unlock_witness :
  reachable treble_learner
  /\ N "G" 4 ∈ unlocked_prefix "treble" treble_learner
  /\ checkProgression "treble"
       (snd (recordResult "treble-G4" false 1000 0 treble_learner))
     = Ok (false, snd (recordResult "treble-G4" false 1000 0 treble_learner)).
Proof.
  assert (Hin : N "G" 4 ∈ unlocked_prefix "treble" treble_learner).
  { assert (Hp : unlocked_prefix "treble" treble_learner !! 5%nat = Some (N "G" 4))
      by (by vm_compute).
    exact (list_elem_of_lookup_2 _ _ _ Hp). }
  split; [exact reachable_treble_learner|]. split; [exact Hin|].
  exact (wrong_answer_blocks_unlock "treble" treble_learner (N "G" 4) 1000 0
           reachable_treble_learner Hin).
Defined.

(** X12: practice always pays: from any engine of a session whose cursor is
    below the length of the clef's curriculum, twenty fast correct answers on
    every unlocked note of the clef followed by the unlock check raise the
    cursor by exactly 1, and the result is saved. *)
Theorem practise_round_unlocks (clef : string) (e : Engine) :
  reachable e ->
  unlockedCount (data e) < Z.of_nat (length (progression clef)) ->
  unlockedCount (data (practise_round clef e)) = unlockedCount (data e) + 1
  /\ localStorage (practise_round clef e) = Some (data (practise_round clef e)).
Proof.
  intros He Hroom. unfold practise_round. cbv zeta.
  fold (practise clef (unlocked_prefix clef e) e).
  set (e1 := practise clef (unlocked_prefix clef e) e).
  apply reachable_ok in He as [Hok _].
  assert (Hcur : unlockedCount (data e1) = unlockedCount (data e))
    by apply (practise_streak clef (unlocked_prefix clef e) e "").
  assert (HF : Forall (fun p => mastered clef e1 p = true) (unlocked_prefix clef e1)).
  { unfold unlocked_prefix at 1. rewrite Hcur. fold (unlocked_prefix clef e).
    apply Forall_forall. intros p Hp. rewrite mastered_streak_of.
    apply bool_decide_eq_true_2.
    destruct (practise_streak clef (unlocked_prefix clef e) e
                (getKey clef (p_n p) (p_o p))) as (_ & Hin & _).
    pose proof (streak_of_nonneg (getKey clef (p_n p) (p_o p)) e Hok).
    fold e1 in Hin. unfold REQUIRED_STREAK_PER_NOTE.
    assert (streak_of (getKey clef (p_n p) (p_o p)) e + 20
            <= streak_of (getKey clef (p_n p) (p_o p)) e1) by (apply Hin; eauto).
    lia. }
  destruct Hok as (_ & Hmin & _).
  destruct (checkProgression_cases clef e1) as (b & e' & -> & _ & Hcases).
  destruct Hcases as [(_ & _ & _ & Hu & Hl)|(_ & [?|[?|Hnot]] & _)];
    [split; [lia|done]|lia|lia|done].
Qed.

Lemma practise_round_unlocks_witness :
  reachable (constructor None)
  /\ unlockedCount (data (constructor None)) < Z.of_nat (length (progression "bass"))
  /\ unlockedCount (data (practise_round "bass" (constructor None))) = 3 + 1.
Proof.
  assert (Hroom : unlockedCount (data (constructor None))
                  < Z.of_nat (length (progression "bass"))) by (by vm_compute).
  split; [exact reach_new|]. split; [exact Hroom|].
  exact (proj1 (practise_round_unlocks "bass" (constructor None) reach_new Hroom)).
Defined.

(** ** The record ids *)

Lemma record_ids_NoDup :
  NoDup (((fun p => getKey "treble" (p_n p) (p_o p)) <$> PROGRESSION_treble)
         ++ ((fun p => getKey "bass" (p_n p) (p_o p)) <$> PROGRESSION_bass)).
Proof. apply (bool_decide_unpack _). by vm_compute. Qed.

(** X13: every note of the two curricula has a mastery record of its own: two
    entries, of the same clef or not, have the same record id only if they
    are the same entry of the same clef. *)
Theorem record_ids_distinct (clef clef' : string) (i j : nat)
    (p q : ProgressionNote) :
  clef ∈ ["treble"; "bass"] -> clef' ∈ ["treble"; "bass"] ->
  progression clef !! i = Some p -> progression clef' !! j = Some q ->
  getKey clef (p_n p) (p_o p) = getKey clef' (p_n q) (p_o q) ->
  clef = clef' /\ i = j.
Proof.
  intros Hc Hc' Hp Hq Hkey.
  set (ids := ((fun p => getKey "treble" (p_n p) (p_o p)) <$> PROGRESSION_treble)
              ++ ((fun p => getKey "bass" (p_n p) (p_o p)) <$> PROGRESSION_bass)).
  assert (Hpos : forall c k r, c ∈ ["treble"; "bass"] -> progression c !! k = Some r ->
            ids !! (if decide (c = "treble") then k else 14 + k)%nat
            = Some (getKey c (p_n r) (p_o r))
            /\ (k < 14)%nat).
  { intros c k r Hin Hr. pose proof (lookup_lt_Some _ _ _ Hr) as Hlt.
    rewrite !elem_of_cons, elem_of_nil in Hin. destruct Hin as [->|[->|[]]].
    - change (progression "treble") with PROGRESSION_treble in Hr, Hlt.
      rewrite decide_True by done. split; [|exact Hlt]. unfold ids.
      rewrite lookup_app_l by (rewrite length_fmap; exact Hlt).
      by rewrite list_lookup_fmap, Hr.
    - change (progression "bass") with PROGRESSION_bass in Hr, Hlt.
      rewrite decide_False by done. split; [|cbn in Hlt; lia]. unfold ids.
      rewrite lookup_app_r by (rewrite length_fmap; cbn; lia).
      rewrite length_fmap. change (length PROGRESSION_treble) with 14%nat.
      replace (14 + k - 14)%nat with k by lia.
      by rewrite list_lookup_fmap, Hr. }
  destruct (Hpos clef i p Hc Hp) as [Hi Hi14].
  destruct (Hpos clef' j q Hc' Hq) as [Hj Hj14].
  rewrite Hkey in Hi.
  pose proof (NoDup_lookup _ _ _ _ record_ids_NoDup Hi Hj) as Heq.
  rewrite !elem_of_cons, elem_of_nil in Hc, Hc'.
  destruct Hc as [->|[->|[]]], Hc' as [->|[->|[]]];
    repeat (rewrite decide_True in Heq by done);
    repeat (rewrite decide_False in Heq by done);
    split; try done; lia.
Qed.

Lemma record_ids_distinct_witness :
  "treble" ∈ ["treble"; "bass"] /\ "bass" ∈ ["treble"; "bass"]
  /\ progression "treble" !! 0%nat = Some (N "C" 4)
  /\ progression "bass" !! 0%nat = Some (N "C" 3)
  /\ getKey "treble" "C" 4 <> getKey "bass" "C" 3.
Proof.
  assert (Ht : "treble" ∈ ["treble"; "bass"]) by (by left).
  assert (Hb : "bass" ∈ ["treble"; "bass"]) by (right; by left).
  split; [exact Ht|]. split; [exact Hb|]. split; [reflexivity|]. split; [reflexivity|].
  intros Hkey.
  by destruct (record_ids_distinct "treble" "bass" 0 0 (N "C" 4) (N "C" 3)
                 Ht Hb eq_refl eq_refl Hkey).
Defined.

(** ** The branches of the selector *)

Lemma pool_entry clef keySig sigNotes e P (c : Card) :
  c ∈ make_card clef keySig sigNotes <$> entry_pool P (unlocked_prefix clef e) ->
  exists p, c = make_card clef keySig sigNotes p
            /\ p ∈ unlocked_prefix clef e /\ P p = true.
Proof.
  intros (p & -> & Hp)%list_elem_of_fmap.
  apply list_elem_of_filter in Hp as [HP Hp]. by exists p.
Qed.

(** X14: when some unlocked note is struggling and the first draw is under
    0.4, the card is that of a struggling note of the unlocked prefix (a
    record with level 0 or a streak under 20), whatever else is due or
    new. *)
Theorem generateCard_struggling_branch (clef keySig : string)
    (sigNotes : list string) (now : Z) (rand : nat -> Q) (e : Engine) :
  KEY_SIGNATURES keySig = Some sigNotes ->
  (forall k, 0 <= rand k /\ rand k < 1)%Q ->
  entry_pool (struggling clef e) (unlocked_prefix clef e) <> [] ->
  Qltb (rand 0%nat) 0.4 = true ->
  exists (p : ProgressionNote) (e' : Engine),
    generateCard clef keySig now rand e
    = Ok (Some (make_card clef keySig sigNotes p), e')
    /\ p ∈ unlocked_prefix clef e /\ struggling clef e p = true.
Proof.
  intros Hsig Hrand Hne Hdraw.
  destruct (generateCard_pools clef keySig sigNotes now rand e Hsig)
    as (s & -> & _ & _ & HS & _ & _).
  unfold select_card. rewrite HS.
  destruct (Hrand 1%nat) as [H0 H1].
  destruct (pick_elem (rand 1%nat)
              (make_card clef keySig sigNotes
                 <$> entry_pool (struggling clef e) (unlocked_prefix clef e)) H0 H1)
    as (c & Hpick & Hc).
  { intros Hnil%fmap_nil_inv. done. }
  apply pool_entry in Hc as (p & -> & Hp & Hstr).
  exists p, (pool_engine s). split; [|done].
  destruct (entry_pool (struggling clef e) (unlocked_prefix clef e)) as [|q qs];
    [done|].
  cbn [fmap list_fmap]. cbn [fmap list_fmap] in Hpick. cbv zeta. cbv iota beta.
  rewrite Hdraw. by rewrite Hpick.
Qed.

Lemma generateCard_struggling_branch_witness :
  KEY_SIGNATURES "G" = Some ["F#"]
  /\ (forall k : nat, 0 <= 0.1 /\ 0.1 < 1)%Q
  /\ entry_pool (struggling "treble" first_answer)
       (unlocked_prefix "treble" first_answer) = [N "C" 4]
  /\ exists (p : ProgressionNote) (e' : Engine),
       generateCard "treble" "G" 60000 (fun _ => 0.1%Q) first_answer
       = Ok (Some (make_card "treble" "G" ["F#"] p), e')
       /\ p ∈ unlocked_prefix "treble" first_answer
       /\ struggling "treble" first_answer p = true.
Proof.
  assert (Hrand : forall k : nat, (0 <= 0.1 /\ 0.1 < 1)%Q) by (by intros k).
  assert (Hpool : entry_pool (struggling "treble" first_answer)
                    (unlocked_prefix "treble" first_answer) = [N "C" 4])
    by (by vm_compute).
  split; [reflexivity|]. split; [exact Hrand|]. split; [exact Hpool|].
  apply (generateCard_struggling_branch "treble" "G" ["F#"] 60000 (fun _ => 0.1%Q)
           first_answer eq_refl Hrand); [by rewrite Hpool|reflexivity].
Defined.

(** X15: once every unlocked note has been attempted and none is struggling,
    a note that is due is always preferred: if some unlocked note is due,
    the card is that of a due note of the unlocked prefix. *)
Theorem generateCard_due_before_review (clef keySig : string)
    (sigNotes : list string) (now : Z) (rand : nat -> Q) (e : Engine) :
  KEY_SIGNATURES keySig = Some sigNotes ->
  (forall k, 0 <= rand k /\ rand k < 1)%Q ->
  entry_pool (struggling clef e) (unlocked_prefix clef e) = [] ->
  entry_pool (never_attempted clef e) (unlocked_prefix clef e) = [] ->
  entry_pool (due now clef e) (unlocked_prefix clef e) <> [] ->
  exists (p : ProgressionNote) (e' : Engine),
    generateCard clef keySig now rand e
    = Ok (Some (make_card clef keySig sigNotes p), e')
    /\ p ∈ unlocked_prefix clef e /\ due now clef e p = true.
Proof.
  intros Hsig Hrand Hstr Hnew Hdue.
  destruct (generateCard_pools clef keySig sigNotes now rand e Hsig)
    as (s & -> & _ & HN & HS & HD & _).
  unfold select_card. rewrite HS, HN, HD, Hstr, Hnew. cbn [fmap list_fmap].
  cbv zeta. cbv iota beta.
  destruct (Hrand 0%nat) as [H0 H1].
  destruct (pick_elem (rand 0%nat)
              (make_card clef keySig sigNotes
                 <$> entry_pool (due now clef e) (unlocked_prefix clef e)) H0 H1)
    as (c & Hpick & Hc).
  { intros Hnil%fmap_nil_inv. done. }
  apply pool_entry in Hc as (p & -> & Hp & Hd).
  exists p, (pool_engine s). split; [|done].
  destruct (entry_pool (due now clef e) (unlocked_prefix clef e)) as [|q qs];
    [done|].
  cbn [fmap list_fmap]. cbn [fmap list_fmap] in Hpick. by rewrite Hpick.
Qed.

Lemma generateCard_due_before_review_witness :
  KEY_SIGNATURES "C" = Some []
  /\ (forall k : nat, 0 <= 0.5 /\ 0.5 < 1)%Q
  /\ entry_pool (due 0 "treble" three_mastered)
       (unlocked_prefix "treble" three_mastered) = [N "C" 4; N "D" 4; N "E" 4]
  /\ exists (p : ProgressionNote) (e' : Engine),
       generateCard "treble" "C" 0 (fun _ => 0.5%Q) three_mastered
       = Ok (Some (make_card "treble" "C" [] p), e')
       /\ p ∈ unlocked_prefix "treble" three_mastered
       /\ due 0 "treble" three_mastered p = true.
Proof.
  assert (Hrand : forall k : nat, (0 <= 0.5 /\ 0.5 < 1)%Q) by (by intros k).
  assert (Hpool : entry_pool (due 0 "treble" three_mastered)
                    (unlocked_prefix "treble" three_mastered)
                  = [N "C" 4; N "D" 4; N "E" 4]) by (by vm_compute).
  split; [reflexivity|]. split; [exact Hrand|]. split; [exact Hpool|].
  apply (generateCard_due_before_review "treble" "C" [] 0 (fun _ => 0.5%Q)
           three_mastered eq_refl Hrand);
    [by vm_compute|by vm_compute|by rewrite Hpool].
Defined.

Lemma generateCard_entry_or_fallback_witness :
  KEY_SIGNATURES "G" = Some ["F#"]
  /\ (forall k : nat, 0 <= 0.5 /\ 0.5 < 1)%Q
  /\ exists (c : Card) (e' : Engine),
       generateCard "bass" "G" 0 (fun _ => 0.5%Q) treble_learner = Ok (Some c, e')
       /\ same_engine treble_learner e'
       /\ ((exists i : nat, Z.of_nat i < unlockedCount (data treble_learner)
                            /\ card_of_entry "bass" i c)
           \/ (c = fallback_card "bass" "G"
               /\ entry_pool (attempted "bass" treble_learner)
                    (unlocked_prefix "bass" treble_learner) = [])).
Proof.
  assert (Hrand : forall k : nat, (0 <= 0.5 /\ 0.5 < 1)%Q) by (by intros k).
  split; [reflexivity|]. split; [exact Hrand|].
  exact (generateCard_entry_or_fallback "bass" "G" ["F#"] 0 (fun _ => 0.5%Q)
           treble_learner eq_refl Hrand).
Defined.

(** ** The slow branch of recordResult *)

(** X27: a correct answer above the fast threshold of 2500 ms never raises
    the level: it leaves the record with the level it had, capped at 2 (so a
    note at level 3, 4 or 5 falls back to 2), a review 3 minutes after now
    and the streak raised by 1; the answer is reported as slow and the data
    is saved.  A note without a record starts from level 0 and streak 0. *)
Theorem recordResult_slow_correct (cardId : string) (timeDelta now : Z)
    (e : Engine) (Hslow : fastThreshold < timeDelta) :
  let it := default new_item (getItem cardId e) in
  let e' := snd (recordResult cardId true timeDelta now e) in
  getItem cardId e'
  = Some {| level := Nat.min (level it) 2;
            nextReview := now + 180000;
            streak := Some (streak_or_0 it + 1) |}
  /\ fst (recordResult cardId true timeDelta now e) = "slow"
  /\ localStorage e' = Some (data e').
Proof.
  unfold fastThreshold in Hslow. cbv zeta. unfold recordResult, getItem.
  rewrite bool_decide_eq_false_2 by lia. cbn. rewrite lookup_insert_eq.
  split; [|done]. rewrite streak_or_0_ensure, level_ensure. do 2 f_equal.
Qed.

Lemma recordResult_slow_correct_witness :
  fastThreshold < 3000
  /\ getItem "treble-C4" first_answer
     = Some {| level := 1; nextReview := 300000; streak := Some 1 |}
  /\ getItem "treble-C4" (snd (recordResult "treble-C4" true 3000 5000 first_answer))
     = Some {| level := 1; nextReview := 185000; streak := Some 2 |}
  /\ fst (recordResult "treble-C4" true 3000 5000 first_answer) = "slow".
Proof.
  assert (Hslow : fastThreshold < 3000) by (by vm_compute).
  split; [exact Hslow|]. split; [reflexivity|].
  destruct (recordResult_slow_correct "treble-C4" 3000 5000 first_answer Hslow)
    as (Hrec & Hfeedback & _).
  split; [exact Hrec|exact Hfeedback].
Defined.

(** * Further properties of the pitch detector *)

(** ** What the estimator returns and throws *)

Section NoThrow.
Context {A S R : Type}.

Lemma for_from_Throw (body : Z -> S -> Completion S R) (k : nat) :
  forall (i : Z) (s : S) (x : Exception),
  (forall i s x, body i s <> Throw x) ->
  for_from i k body s <> Throw x.
Proof.
  induction k as [|k IH]; intros i s x Hbody; [done|].
  cbn [for_from]. destruct (body i s) as [s'|r'|x'] eqn:Hb; [by apply IH|done|].
  by apply Hbody in Hb.
Qed.

Lemma for_of_Throw (step : A -> S -> Completion S R) (xs : list A) :
  forall (s : S) (x : Exception),
  (forall a s x, step a s <> Throw x) ->
  for_of xs step s <> Throw x.
Proof.
  induction xs as [|a xs IH]; intros s x Hstep; [done|].
  cbn [for_of]. destruct (step a s) as [s'|r'|x'] eqn:Hb; [by apply IH|done|].
  by apply Hstep in Hb.
Qed.

End NoThrow.


Lemma autocorrelate_body_Throw normalizedBuffer sampleRate MIN_SAMPLES
    ACTUAL_MAX_SAMPLES (offset : Z) (s : Scan) (x : Exception) :
  autocorrelate_body normalizedBuffer sampleRate MIN_SAMPLES ACTUAL_MAX_SAMPLES
    offset s <> Throw x.
Proof.
  unfold autocorrelate_body.
  destruct (Qltb (bestCorrelation s) _); cbv zeta;
    (destruct (_ && _); [done|]);
    (destruct (_ && _); [|done]);
    (destruct (_ && _); [|done]);
    (destruct (array_get _ _); [|done]);
    (destruct (array_get _ _); [|done]);
    (destruct (array_get _ _); [|done]);
    (destruct (_ || _); [done|]);
    by destruct (Qltb 0 _).
Qed.

Lemma peaks_body_Throw correlations sampleRate (offset : Z) (peaks : list Peak)
    (x : Exception) :
  peaks_body correlations sampleRate offset peaks <> Throw x.
Proof.
  unfold peaks_body.
  repeat (destruct (array_get _ _); [|done]).
  by destruct (_ && _).
Qed.

Lemma lowerPeak_body_Throw frequency correlations sampleRate MIN_SAMPLES
    bestCorrelation (lowerPeak : Peak) (s : unit) (x : Exception) :
  lowerPeak_body frequency correlations sampleRate MIN_SAMPLES bestCorrelation
    lowerPeak s <> Throw x.
Proof.
  unfold lowerPeak_body. cbv zeta.
  destruct (_ && _); [|done].
  destruct (_ && _).
  - destruct (Qltb _ _); [|done]. by destruct (Qltb 0 _).
  - destruct (_ && _); [|done].
    destruct (Qltb _ _); [|done]. by destruct (Qltb 0 _).
Qed.

Lemma Qfloor_neg (x : Q) : (Qfloor x < 0)%Z <-> (x < 0)%Q.
Proof.
  split.
  - intros H. apply Qlt_le_trans with (inject_Z (Qfloor x + 1)).
    + apply Qlt_floor.
    + change 0%Q with (inject_Z 0). rewrite <- Zle_Qle. lia.
  - intros H. apply Z.lt_nge. intros Hge.
    apply (Qlt_not_le _ _ H). apply Qle_trans with (inject_Z (Qfloor x)).
    + change 0%Q with (inject_Z 0). by rewrite <- Zle_Qle.
    + apply Qfloor_le.
Qed.

Lemma sixty_neg (sampleRate : Q) : (sampleRate / 60 < 0)%Q <-> (sampleRate < 0)%Q.
Proof.
  unfold Qdiv. change (/ 60)%Q with (1 # 60)%Q. unfold Qlt. cbn. lia.
Qed.

(** X17: [autocorrelate] throws exactly when the sample rate is negative, and
    what it throws is the [RangeError] of [new Array] with a negative
    length. *)
Theorem autocorrelate_raises_iff (buffer : list Q) (sampleRate : Q) (x : Exception) :
  autocorrelate buffer sampleRate = Raise x
  <-> x = RangeError /\ (sampleRate < 0)%Q.
Proof.
  unfold autocorrelate. cbv zeta. unfold new_Array, Math_floor.
  assert (Hhalf : (0 <= Qfloor (inject_Z (Z.of_nat (length buffer)) / 2))%Z).
  { apply Z.le_ngt. rewrite Qfloor_neg. apply Qle_not_lt.
    unfold Qdiv, Qle. cbn. lia. }
  pose proof (Qfloor_neg (sampleRate / 60)) as Hneg. rewrite sixty_neg in Hneg.
  destruct (decide (_ < 0)%Z) as [Hlen|Hlen].
  { split; [intros [= <-]; split; [done|apply Hneg; lia]|by intros [-> _]]. }
  assert (Hrate : ~ (sampleRate < 0)%Q) by (intros H%Hneg; lia).
  split; [|by intros [_ ?]]. intros Hrun. exfalso. revert Hrun.
  destruct (_ && sqrt_lt _ _); [done|].
  destruct (Qeq_bool _ 0); [done|].
  destruct (for_loop _ _ (autocorrelate_body _ _ _ _) _) as [s|r1|x1] eqn:Hscan;
    [|done|].
  2:{ by apply for_from_Throw in Hscan; [|intros; apply autocorrelate_body_Throw]. }
  destruct (for_loop _ _ (peaks_body _ _) _) as [peaks|r1|x1] eqn:Hpeaks; [|done|].
  2:{ by apply for_from_Throw in Hpeaks; [|intros; apply peaks_body_Throw]. }
  destruct (_ && _); [|done].
  destruct (for_of _ _ _) as [[]|r1|x1] eqn:Hlower; [|done|].
  2:{ by apply for_of_Throw in Hlower; [|intros; apply lowerPeak_body_Throw]. }
  destruct (_ && _); [done|]. by destruct (Qltb _ 0).
Qed.

Lemma findFundamentalFrequency_step_sub detectedFreq correlations sampleRate
    minSamples detectedCorrelation (best : Q * Q) (harmonic : Z) :
  best = (detectedFreq, detectedCorrelation)
  \/ (exists h, h ∈ harmonics /\ fst best = (detectedFreq / inject_Z h)%Q
        /\ array_get correlations (Math_round (sampleRate / fst best)) = Some (snd best)) ->
  harmonic ∈ harmonics ->
  findFundamentalFrequency_step detectedFreq correlations sampleRate minSamples
    best harmonic = (detectedFreq, detectedCorrelation)
  \/ (exists h, h ∈ harmonics
        /\ fst (findFundamentalFrequency_step detectedFreq correlations sampleRate
                  minSamples best harmonic) = (detectedFreq / inject_Z h)%Q
        /\ array_get correlations
             (Math_round (sampleRate
                          / fst (findFundamentalFrequency_step detectedFreq correlations
                                   sampleRate minSamples best harmonic)))
           = Some (snd (findFundamentalFrequency_step detectedFreq correlations
                          sampleRate minSamples best harmonic))).
Proof.
  intros Hbest Hh. unfold findFundamentalFrequency_step. cbv zeta.
  destruct best as [bestFundamental bestFundamentalCorrelation].
  destruct (Qltb _ expectedRange_min || Qltb expectedRange_max _); [done|].
  destruct (_ && _); [|done].
  destruct (array_get correlations
              (Math_round (sampleRate / (detectedFreq / inject_Z harmonic))))
    as [candidateCorrelation|] eqn:Hget; [|done].
  destruct (Qltb _ candidateCorrelation); [|done].
  destruct (Qltb _ bestFundamental); [|done].
  right. exists harmonic. cbn [fst snd]. split; [done|]. split; [done|]. exact Hget.
Qed.

(** X18: the harmonic correction never raises a frequency and never invents
    one: what it returns is the sentinel, the detected frequency itself, or
    the detected frequency divided by one of 2, 3, 4, 5, 6, and it returns
    such a sub-harmonic only when it is lower than the detected frequency, in
    the expected band, and stored in [correlations] at its lag with a
    correlation above 0.3.  A detected frequency above 450 Hz is rejected
    even if one of its sub-harmonics would qualify. *)
Theorem findFundamentalFrequency_subharmonic (detectedFreq : Q)
    (correlations : list (option Q)) (sampleRate : Q) (minSamples : Z)
    (detectedCorrelation : Q) :
  let r := findFundamentalFrequency detectedFreq correlations sampleRate
             minSamples detectedCorrelation in
  (r = (-1)%Q
   \/ (r = detectedFreq /\ in_band detectedFreq)
   \/ (exists h c, h ∈ [2; 3; 4; 5; 6]%Z
         /\ r = (detectedFreq / inject_Z h)%Q
         /\ (r < detectedFreq)%Q /\ in_band r
         /\ array_get correlations (Math_round (sampleRate / r)) = Some c
         /\ (0.3 < c)%Q))
  /\ ((450 < detectedFreq)%Q -> r = (-1)%Q).
Proof.
  intros r. split.
  2:{ intros H%Qltb_lt. subst r. unfold findFundamentalFrequency. by rewrite H. }
  assert (Hr : findFundamentalFrequency detectedFreq correlations sampleRate
                 minSamples detectedCorrelation = r) by reflexivity.
  clearbody r. destruct Hr.
  pose proof (findFundamentalFrequency_range detectedFreq correlations sampleRate
                minSamples detectedCorrelation) as Hrange.
  unfold findFundamentalFrequency in *.
  destruct (Qltb 450 detectedFreq); [by left|].
  assert (Hinv : forall hs best,
            Forall (fun h => h ∈ harmonics) hs ->
            best = (detectedFreq, detectedCorrelation)
            \/ (exists h, h ∈ harmonics /\ fst best = (detectedFreq / inject_Z h)%Q
                  /\ array_get correlations (Math_round (sampleRate / fst best))
                     = Some (snd best)) ->
            foldl (findFundamentalFrequency_step detectedFreq correlations
                     sampleRate minSamples) best hs = (detectedFreq, detectedCorrelation)
            \/ (exists h, h ∈ harmonics
                  /\ fst (foldl (findFundamentalFrequency_step detectedFreq correlations
                                   sampleRate minSamples) best hs)
                     = (detectedFreq / inject_Z h)%Q
                  /\ array_get correlations
                       (Math_round
                          (sampleRate
                           / fst (foldl (findFundamentalFrequency_step detectedFreq
                                           correlations sampleRate minSamples) best hs)))
                     = Some (snd (foldl (findFundamentalFrequency_step detectedFreq
                                           correlations sampleRate minSamples) best hs)))).
  { induction hs as [|h hs IH]; intros best Hhs Hbest; [done|].
    apply Forall_cons in Hhs as [Hh Hhs]. cbn [foldl]. apply IH; [done|].
    by apply findFundamentalFrequency_step_sub. }
  specialize (Hinv harmonics (detectedFreq, detectedCorrelation)
                (proj2 (Forall_forall _ _) (fun h H => H)) (or_introl eq_refl)).
  destruct (foldl _ _ harmonics) as [bestFundamental bestFundamentalCorrelation].
  cbn [fst snd] in Hinv.
  destruct (Qltb bestFundamental detectedFreq && _) eqn:Hlower.
  - apply andb_true_iff in Hlower as [Hlt%Qltb_lt Hcorr%Qltb_lt].
    destruct Hinv as [[= -> _]|(h & Hh & Hfreq & Hget)].
    { by apply Qlt_irrefl in Hlt. }
    destruct Hrange as [Hs|Hband]; [by left|].
    right. right. by exists h, bestFundamentalCorrelation.
  - destruct (Qltb _ expectedRange_min || Qltb expectedRange_max _) eqn:Hout;
      [by left|].
    destruct Hrange as [Hs|Hband]; [by left|]. right. by left.
Qed.

Lemma sum_squares_small (t2 : Q) (l : list Q) : forall a : Q,
  (forall x, x ∈ l -> (x * x < t2)%Q) -> l <> [] ->
  (foldl (fun rms val => rms + val * val) a l
   < a + inject_Z (Z.of_nat (length l)) * t2)%Q.
Proof.
  induction l as [|x l IH]; intros a Hall Hne; [done|].
  cbn [foldl]. assert (Hx : (x * x < t2)%Q) by (apply Hall; left).
  destruct l as [|y l].
  - cbn. rewrite Qmult_1_l. by apply Qplus_lt_r.
  - eapply Qlt_le_trans.
    + apply IH; [|done]. intros z Hz. apply Hall. by right.
    + change (length (x :: y :: l)) with (Datatypes.S (length (y :: l))).
      rewrite (Nat2Z.inj_succ (length (y :: l))). unfold Z.succ.
      rewrite inject_Z_plus. rewrite Qmult_plus_distr_l, Qmult_1_l.
      rewrite <- Qplus_assoc. apply Qplus_le_r.
      rewrite Qplus_comm. apply Qplus_le_r. by apply Qlt_le_weak.
Qed.

Lemma square_small (x t : Q) : (Qabs x < t)%Q -> (x * x < t * t)%Q.
Proof.
  intros [Hlo Hhi]%Qabs_Qlt_condition.
  apply Qlt_minus_iff in Hlo, Hhi. apply Qlt_minus_iff.
  assert (Heq : (t * t + - (x * x) == (t + - x) * (x + - - t))%Q) by ring.
  rewrite Heq. by apply Qmult_lt_0_compat.
Qed.

Lemma half_size_nonneg (n : nat) : (0 <= Qfloor (inject_Z (Z.of_nat n) / 2))%Z.
Proof.
  apply Z.le_ngt. rewrite Qfloor_neg. apply Qle_not_lt.
  unfold Qdiv, Qle. cbn. lia.
Qed.

(** X19: silence is never a note: on a buffer whose samples are all below
    0.005 in absolute value (in particular all 0, or no sample at all) the
    estimator returns the sentinel -1, at every sample rate that is not
    negative. *)
Theorem autocorrelate_quiet (buffer : list Q) (sampleRate : Q) :
  (0 <= sampleRate)%Q ->
  (forall x, x ∈ buffer -> (Math_abs x < 0.005)%Q) ->
  autocorrelate buffer sampleRate = Ok (-1)%Q.
Proof.
  intros Hrate Hquiet. unfold autocorrelate. cbv zeta. unfold new_Array, Math_floor.
  pose proof (half_size_nonneg (length buffer)) as Hhalf.
  pose proof (Qfloor_neg (sampleRate / 60)) as Hneg. rewrite sixty_neg in Hneg.
  rewrite decide_False.
  2:{ intros Hlen. apply (Qle_not_lt _ _ Hrate). apply Hneg. lia. }
  destruct buffer as [|x buffer]; [done|].
  rewrite bool_decide_eq_true_2 by (cbn [length]; lia). cbn [andb].
  assert (Hsmall : sqrt_lt (foldl (fun rms val => rms + val * val) 0 (x :: buffer)
                            / inject_Z (Z.of_nat (length (x :: buffer))))%Q 0.005
                   = true).
  { unfold sqrt_lt. apply Qltb_lt.
    pose proof (sum_squares_small (0.005 * 0.005) (x :: buffer) 0
                  (fun y Hy => square_small y 0.005 (Hquiet y Hy)) ltac:(done)) as Hsum.
    rewrite Qplus_0_l in Hsum.
    assert (Hn : (0 < inject_Z (Z.of_nat (length (x :: buffer))))%Q).
    { change 0%Q with (inject_Z 0). rewrite <- Zlt_Qlt. cbn [length]. lia. }
    apply Qlt_shift_div_r; [done|]. by rewrite Qmult_comm. }
  by rewrite Hsmall.
Qed.

Lemma autocorrelate_quiet_witness :
  (0 <= 44100)%Q
  /\ Forall (fun x => (Math_abs x < 0.005)%Q) [0.001; -0.004; 0; 0.003]%Q
  /\ autocorrelate [0.001; -0.004; 0; 0.003]%Q 44100 = Ok (-1)%Q.
Proof.
  assert (Hquiet : Forall (fun x => (Math_abs x < 0.005)%Q) [0.001; -0.004; 0; 0.003]%Q)
    by (repeat constructor).
  split; [discriminate|]. split; [exact Hquiet|].
  apply autocorrelate_quiet; [discriminate|].
  exact (proj1 (Forall_forall _ _) Hquiet).
Defined.

(** X20: a buffer too short to hold two periods of 500 Hz has no lag to scan:
    when [floor(SIZE / 2)] is at most [floor(sampleRate / 500)] the
    estimator returns the sentinel -1, whatever the samples are. *)
Theorem autocorrelate_short_buffer (buffer : list Q) (sampleRate : Q) :
  (0 <= sampleRate)%Q ->
  (Qfloor (inject_Z (Z.of_nat (length buffer)) / 2) <= Qfloor (sampleRate / 500))%Z ->
  autocorrelate buffer sampleRate = Ok (-1)%Q.
Proof.
  intros Hrate Hshort. unfold autocorrelate. cbv zeta. unfold new_Array, Math_floor.
  pose proof (half_size_nonneg (length buffer)) as Hhalf.
  pose proof (Qfloor_neg (sampleRate / 60)) as Hneg. rewrite sixty_neg in Hneg.
  rewrite decide_False.
  2:{ intros Hlen. apply (Qle_not_lt _ _ Hrate). apply Hneg. lia. }
  destruct (_ && sqrt_lt _ _); [done|].
  destruct (Qeq_bool _ 0); [done|].
  unfold for_loop.
  replace (Z.to_nat (Z.min (Qfloor (sampleRate / 60))
                       (Qfloor (inject_Z (Z.of_nat (length buffer)) / 2))
                     - Qfloor (sampleRate / 500))) with 0%nat by lia.
  cbn [for_from].
  replace (Z.to_nat (Z.min (Qfloor (sampleRate / 60))
                       (Qfloor (inject_Z (Z.of_nat (length buffer)) / 2)) - 2
                     - (Qfloor (sampleRate / 500) + 2))) with 0%nat by lia.
  cbn [for_from bestOffset bestCorrelation]. 
  by rewrite andb_false_r.
Qed.

Lemma autocorrelate_short_buffer_witness :
  (0 <= 44100)%Q
  /\ Qfloor (inject_Z (Z.of_nat (length [1; 0; 0; 1; 0; 0; 1; 0]%Q)) / 2)
     <= Qfloor (44100 / 500)
  /\ autocorrelate [1; 0; 0; 1; 0; 0; 1; 0]%Q 44100 = Ok (-1)%Q.
Proof.
  split; [discriminate|]. split; [by vm_compute|].
  apply autocorrelate_short_buffer; [discriminate|by vm_compute].
Defined.

(** ** The note mapper *)

(** [Math.round] on the reals: the integer [k] with [k - 1/2 <= x < k + 1/2]. *)
Lemma Math_round_R_spec (x : R) (k : Z) :
  (IZR k - / 2 <= x < IZR k + / 2)%R -> Math_round_R x = k.
Proof.
  intros [Hlo Hhi]. unfold Math_round_R. symmetry. apply Int_part_spec. lra.
Qed.

Lemma Math_round_R_bounds (x : R) :
  (IZR (Math_round_R x) - / 2 <= x < IZR (Math_round_R x) + / 2)%R.
Proof.
  unfold Math_round_R. destruct (base_Int_part (x + / 2)) as [Hlo Hhi]. lra.
Qed.

Lemma Math_round_R_mono (x y : R) : (x <= y)%R -> Math_round_R x <= Math_round_R y.
Proof.
  intros Hxy. pose proof (Math_round_R_bounds x) as [Hx _].
  pose proof (Math_round_R_bounds y) as [_ Hy].
  assert (H : (IZR (Math_round_R x) < IZR (Math_round_R y + 1))%R).
  { rewrite plus_IZR. lra. }
  apply lt_IZR in H. lia.
Qed.

Lemma ln_2_pos : (0 < ln 2)%R.
Proof. rewrite <- ln_1. apply ln_increasing; lra. Qed.

(** [12 * log2(2^(k/12)) = k] *)
Lemma semitones_Rpower (y : R) : (12 * Math_log2 (Rpower 2 (y / 12)) = y)%R.
Proof.
  unfold Math_log2, Rpower. rewrite ln_exp. pose proof ln_2_pos. field. lra.
Qed.

Lemma Math_log2_mono (x y : R) : (0 < x)%R -> (x <= y)%R ->
  (Math_log2 x <= Math_log2 y)%R.
Proof.
  intros Hx Hxy. unfold Math_log2. pose proof ln_2_pos.
  apply Rmult_le_compat_r; [left; by apply Rinv_0_lt_compat|].
  destruct Hxy as [Hlt| ->]; [left; by apply ln_increasing|lra].
Qed.

Lemma Q2R_over_A4 (f : Q) : Q2R (f / A4) = (Q2R f / 440)%R.
Proof.
  rewrite Q2R_div by done. f_equal. unfold Q2R. cbn. lra.
Qed.

(** In the expected band the note is between 36 semitones below A4 and A4. *)
Lemma roundedSemitones_in_band (f : Q) :
  in_band f -> -36 <= roundedSemitones f <= 0.
Proof.
  intros [Hmin%Qle_Rle Hmax%Qle_Rle]. unfold roundedSemitones.
  rewrite Q2R_over_A4.
  replace (Q2R expectedRange_min) with 60%R in Hmin by (unfold Q2R; cbn; lra).
  replace (Q2R expectedRange_max) with 400%R in Hmax by (unfold Q2R; cbn; lra).
  split.
  - rewrite <- (Math_round_R_spec (-36) (-36)) by lra.
    apply Math_round_R_mono.
    rewrite <- (semitones_Rpower (-36)) at 1.
    apply Rmult_le_compat_l; [lra|]. apply Math_log2_mono; [apply exp_pos|].
    replace (-36 / 12)%R with (- INR 3)%R by (cbn; lra).
    rewrite Rpower_Ropp, Rpower_pow by lra. lra.
  - rewrite <- (Math_round_R_spec 0 0) by lra.
    apply Math_round_R_mono.
    assert (H : (Math_log2 (Q2R f / 440) <= Math_log2 1)%R)
      by (apply Math_log2_mono; lra).
    unfold Math_log2 at 2 in H. rewrite ln_1 in H. unfold Rdiv at 2 in H.
    rewrite Rmult_0_l in H. lra.
Qed.

(** JavaScript's [((n % 12) + 12) % 12] is the remainder of the floor
    division. *)
Lemma js_mod_12 (n : Z) : Z.rem (Z.rem n 12 + 12) 12 = n mod 12.
Proof. Z.to_euclidean_division_equations. lia. Qed.

Lemma frequencyToNote_shape (f : Q) :
  (0 < f)%Q ->
  PitchDetector.frequencyToNote f
  = Some {| note := noteNames !!! Z.to_nat ((57 + roundedSemitones f) mod 12);
            octave := (57 + roundedSemitones f) / 12;
            frequency := f;
            accidental :=
              if includes (noteNames !!! Z.to_nat ((57 + roundedSemitones f) mod 12)) "#"
              then Some "#" else None |}.
Proof.
  intros Hf. unfold PitchDetector.frequencyToNote.
  destruct (Qle_bool f 0) eqn:Hle.
  { apply Qle_bool_iff in Hle. by apply Qle_not_lt in Hle. }
  cbv zeta. change (4 * 12 + 9) with 57. by rewrite js_mod_12.
Qed.

Lemma noteNames_index_nat (n : nat) :
  (n < 12)%nat -> indexOf noteNames (noteNames !!! n) = Z.of_nat n.
Proof. intros Hn. do 12 (destruct n as [|n]; [reflexivity|]). lia. Qed.

Lemma noteNames_index (i : Z) :
  0 <= i < 12 -> indexOf noteNames (noteNames !!! Z.to_nat i) = i.
Proof. intros Hi. rewrite noteNames_index_nat by lia. lia. Qed.

Lemma NOTES_index (nm : string) :
  nm ∈ NOTES ->
  0 <= indexOf NOTES nm < 12 /\ noteNames !!! Z.to_nat (indexOf NOTES nm) = nm.
Proof.
  unfold NOTES. rewrite !elem_of_cons, elem_of_nil.
  intros [->|[->|[->|[->|[->|[->|[->|[->|[->|[->|[->|[->|[]]]]]]]]]]]]];
    by vm_compute.
Qed.

(** X21: the note mapper splits the note number correctly, also below C0 where
    JavaScript's [%] is negative: for every positive frequency the result is
    defined, its name is one of the twelve, and [12 * octave + index of the
    name] is [57 + round(12 * log2(f / 440))]; the frequency is passed on and
    the accidental is [#] exactly for the sharp names. *)
Theorem frequencyToNote_note_number (f : Q) :
  (0 < f)%Q ->
  exists nt : Note,
    PitchDetector.frequencyToNote f = Some nt
    /\ frequency nt = f
    /\ 0 <= indexOf noteNames (note nt) < 12
    /\ 12 * octave nt + indexOf noteNames (note nt) = 57 + roundedSemitones f
    /\ accidental nt = (if includes (note nt) "#" then Some "#" else None).
Proof.
  intros Hf. eexists. split; [by apply frequencyToNote_shape|].
  cbn [note octave frequency accidental].
  pose proof (Z.mod_pos_bound (57 + roundedSemitones f) 12 ltac:(lia)) as Hb.
  rewrite noteNames_index by done.
  split; [done|]. split; [done|]. split; [|done].
  pose proof (Z.div_mod (57 + roundedSemitones f) 12 ltac:(lia)). lia.
Qed.

Lemma frequencyToNote_note_number_witness :
  (0 < 440)%Q
  /\ exists nt : Note,
       PitchDetector.frequencyToNote 440 = Some nt
       /\ frequency nt = 440%Q
       /\ 0 <= indexOf noteNames (note nt) < 12
       /\ 12 * octave nt + indexOf noteNames (note nt) = 57 + roundedSemitones 440
       /\ accidental nt = (if includes (note nt) "#" then Some "#" else None).
Proof.
  split; [reflexivity|]. exact (frequencyToNote_note_number 440 eq_refl).
Defined.

(** X22: the first revision of the mapper ([pitch-detector.js]) names every
    note as the latest one does, and differs in the octave only: it puts the
    notes D# to B one octave higher and agrees on C, C# and D. *)
Theorem frequencyToNote_rev1_octave (f : Q) (nt : Note) :
  PitchDetector.frequencyToNote f = Some nt ->
  PitchDetectorRev1.frequencyToNote f
  = Some {| note := note nt;
            octave := octave nt
                      + (if decide (3 <= indexOf noteNames (note nt)) then 1 else 0);
            frequency := frequency nt;
            accidental := accidental nt |}.
Proof.
  unfold PitchDetectorRev1.frequencyToNote.
  destruct (Qle_bool f 0) eqn:Hle.
  { apply Qle_bool_iff in Hle. by rewrite frequencyToNote_nonpositive. }
  rewrite frequencyToNote_shape.
  2:{ apply Qnot_le_lt. intros H%Qle_bool_iff. by rewrite H in Hle. }
  intros [= <-]. cbv zeta. cbn [note octave frequency accidental].
  rewrite js_mod_12.
  pose proof (Z.mod_pos_bound (57 + roundedSemitones f) 12 ltac:(lia)) as Hb.
  rewrite noteNames_index by done.
  replace ((roundedSemitones f + 9) mod 12) with ((57 + roundedSemitones f) mod 12)
    by (Z.to_euclidean_division_equations; lia).
  do 2 f_equal.
  case_decide; Z.to_euclidean_division_equations; lia.
Qed.

Lemma frequencyToNote_rev1_octave_witness :
  PitchDetector.frequencyToNote 440
  = Some {| note := "A"; octave := 4; frequency := 440; accidental := None |}
  /\ PitchDetectorRev1.frequencyToNote 440
     = Some {| note := "A"; octave := 4 + 1; frequency := 440; accidental := None |}.
Proof.
  assert (H : PitchDetector.frequencyToNote 440
              = Some {| note := "A"; octave := 4; frequency := 440;
                        accidental := None |}).
  { rewrite frequencyToNote_shape by reflexivity.
    rewrite roundedSemitones_440. reflexivity. }
  split; [exact H|]. exact (frequencyToNote_rev1_octave 440 _ H).
Defined.

Lemma Math_log2_lt (x y : R) : (0 < x)%R -> (x < y)%R ->
  (Math_log2 x < Math_log2 y)%R.
Proof.
  intros Hx Hxy. unfold Math_log2. pose proof ln_2_pos.
  apply Rmult_lt_compat_r; [by apply Rinv_0_lt_compat|]. by apply ln_increasing.
Qed.

Lemma getFrequency_Rpower (nm : string) (o : Z) (d : R) :
  (getFrequency nm o * Rpower 2 (d / 12)
   = 440 * Rpower 2 ((IZR (o * 12 + indexOf NOTES nm - 57) + d) / 12))%R.
Proof.
  unfold getFrequency. cbv zeta. change (4 * 12 + 9) with 57.
  rewrite Rmult_assoc, <- Rpower_plus. do 2 f_equal. lra.
Qed.

(** X23: the mapper inverts [getFrequency]: a positive rational frequency
    within a quarter tone of the frequency [getFrequency] gives a note of
    the table is mapped back to that note and that octave. *)
Theorem frequencyToNote_getFrequency (nm : string) (o : Z) (f : Q) :
  nm ∈ NOTES ->
  (getFrequency nm o * Rpower 2 (- / 2 / 12) <= Q2R f
   < getFrequency nm o * Rpower 2 (/ 2 / 12))%R ->
  PitchDetector.frequencyToNote f
  = Some {| note := nm; octave := o; frequency := f;
            accidental := if includes nm "#" then Some "#" else None |}.
Proof.
  intros [Hidx Hname]%NOTES_index [Hlo Hhi].
  rewrite getFrequency_Rpower in Hlo, Hhi.
  set (k := o * 12 + indexOf NOTES nm - 57) in *.
  assert (Hpos : (0 < Q2R f)%R).
  { eapply Rlt_le_trans; [|exact Hlo].
    apply Rmult_lt_0_compat; [lra|apply exp_pos]. }
  assert (Hr : roundedSemitones f = k).
  { unfold roundedSemitones. rewrite Q2R_over_A4. apply Math_round_R_spec. split.
    - apply Rle_trans with (12 * Math_log2 (Rpower 2 ((IZR k + - / 2) / 12)))%R;
        [rewrite semitones_Rpower; lra|].
      apply Rmult_le_compat_l; [lra|]. apply Math_log2_mono; [apply exp_pos|lra].
    - apply Rlt_le_trans with (12 * Math_log2 (Rpower 2 ((IZR k + / 2) / 12)))%R;
        [|rewrite semitones_Rpower; lra].
      apply Rmult_lt_compat_l; [lra|]. apply Math_log2_lt; lra. }
  rewrite frequencyToNote_shape.
  2:{ apply Rlt_Qlt. by rewrite RMicromega.Q2R_0. }
  rewrite Hr. replace (57 + k) with (o * 12 + indexOf NOTES nm) by lia.
  replace ((o * 12 + indexOf NOTES nm) mod 12) with (indexOf NOTES nm)
    by (Z.to_euclidean_division_equations; lia).
  replace ((o * 12 + indexOf NOTES nm) / 12) with o
    by (Z.to_euclidean_division_equations; lia).
  by rewrite Hname.
Qed.

Lemma frequencyToNote_getFrequency_witness :
  "A" ∈ NOTES
  /\ (getFrequency "A" 4 * Rpower 2 (- / 2 / 12) <= Q2R 440
      < getFrequency "A" 4 * Rpower 2 (/ 2 / 12))%R
  /\ PitchDetector.frequencyToNote 440
     = Some {| note := "A"; octave := 4; frequency := 440; accidental := None |}.
Proof.
  assert (Hin : "A" ∈ NOTES) by (by apply (list_elem_of_lookup_2 NOTES 9%nat)).
  assert (Hwin : (getFrequency "A" 4 * Rpower 2 (- / 2 / 12) <= Q2R 440
                  < getFrequency "A" 4 * Rpower 2 (/ 2 / 12))%R).
  { rewrite !getFrequency_Rpower.
    replace (Q2R 440) with (440 * Rpower 2 0)%R
      by (rewrite Rpower_O by lra; unfold Q2R; cbn; lra).
    change (IZR (4 * 12 + indexOf NOTES "A" - 57)) with 0%R.
    split.
    - apply Rmult_le_compat_l; [lra|]. apply Rle_Rpower; lra.
    - apply Rmult_lt_compat_l; [lra|]. apply Rpower_lt; lra. }
  split; [exact Hin|]. split; [exact Hwin|].
  exact (frequencyToNote_getFrequency "A" 4 440 Hin Hwin).
Defined.

(** ** detectPitch *)

(** X24: a polling frame reports a note only while listening and with a
    callback set, and only for a pitch of the expected band 60 to 400 Hz, so
    the note it reports is in octave 1, 2, 3 or 4; a frame that returns
    requests the next frame exactly when the detector is listening. *)
Theorem detectPitch_callback (isListening onNoteDetected : bool)
    (dataArray : list Q) (sampleRate : Q) (call : option (Note * Q)) (again : bool) :
  detectPitch isListening onNoteDetected dataArray sampleRate = Ok (call, again) ->
  again = isListening
  /\ forall (nt : Note) (pitch : Q),
       call = Some (nt, pitch) ->
       isListening = true /\ onNoteDetected = true
       /\ autocorrelate dataArray sampleRate = Ok pitch
       /\ in_band pitch
       /\ PitchDetector.frequencyToNote pitch = Some nt
       /\ 1 <= octave nt <= 4.
Proof.
  unfold detectPitch. destruct isListening; cbn [negb]; [|by intros [= <- <-]].
  destruct (autocorrelate dataArray sampleRate) as [pitch|x] eqn:Hauto; [|done].
  intros [= <- <-]. split; [done|]. intros nt pitch'.
  destruct (Qltb 0 pitch) eqn:Hpos; [|done].
  destruct (PitchDetector.frequencyToNote pitch) as [nt'|] eqn:Hnote; [|done].
  destruct onNoteDetected; [|done]. intros [= -> ->].
  assert (Hband : in_band pitch').
  { destruct (autocorrelate_range _ _ _ Hauto) as [->|Hband]; [done|exact Hband]. }
  repeat (split; [done|]).
  rewrite frequencyToNote_shape in Hnote by (by apply Qltb_lt).
  injection Hnote as <-. cbn [octave].
  pose proof (roundedSemitones_in_band pitch' Hband).
  Z.to_euclidean_division_equations. lia.
Qed.

Lemma roundedSemitones_220 : roundedSemitones (660 # 3) = -12.
Proof.
  unfold roundedSemitones. rewrite Q2R_over_A4.
  replace (Q2R (660 # 3) / 440)%R with (/ 2)%R by (unfold Q2R; cbn; lra).
  apply Math_round_R_spec. unfold Math_log2. rewrite ln_Rinv by lra.
  pose proof ln_2_pos.
  replace (12 * (- ln 2 / ln 2))%R with (-12)%R by (field; lra). lra.
Qed.

Lemma detectPitch_callback_witness :
  detectPitch true true [1; 0; 0; 1; 0; 0; 1; 0]%Q 660
  = Ok (Some ({| note := "A"; octave := 3; frequency := 660 # 3;
                 accidental := None |}, 660 # 3), true)
  /\ in_band (660 # 3)
  /\ 1 <= 3 <= 4.
Proof.
  assert (Hrun : detectPitch true true [1; 0; 0; 1; 0; 0; 1; 0]%Q 660
                 = Ok (Some ({| note := "A"; octave := 3; frequency := 660 # 3;
                                accidental := None |}, 660 # 3), true)).
  { unfold detectPitch. cbn [negb].
    replace (autocorrelate [1; 0; 0; 1; 0; 0; 1; 0]%Q 660) with (Ok (660 # 3))
      by (by vm_compute).
    change (Qltb 0 (660 # 3)) with true. cbv iota.
    rewrite frequencyToNote_shape by reflexivity.
    rewrite roundedSemitones_220. reflexivity. }
  split; [exact Hrun|].
  destruct (proj2 (detectPitch_callback _ _ _ _ _ _ Hrun) _ _ eq_refl)
    as (_ & _ & _ & Hband & _ & Hoct).
  split; [exact Hband|exact Hoct].
Defined.

(** ** Judging an answer *)

Import App.

Lemma enharmonic_map_Some (i j : string) :
  enharmonic_map i = Some j ->
  (i, j) ∈ [("C#", "Db"); ("D#", "Eb"); ("F#", "Gb"); ("G#", "Ab"); ("A#", "Bb")].
Proof.
  unfold enharmonic_map. repeat case_decide; intros [= <-]; subst; set_solver.
Qed.

Lemma isEnharmonic_true (n1 : string) (a1 : option string) (n2 : string)
    (a2 : option string) :
  isEnharmonic n1 a1 n2 a2 = true
  <-> spelled n1 a1 = spelled n2 a2
      \/ enharmonic_map (spelled n1 a1) = Some (spelled n2 a2)
      \/ enharmonic_map (spelled n2 a2) = Some (spelled n1 a1).
Proof.
  unfold isEnharmonic. cbv zeta. repeat case_decide; split; try done; tauto.
Qed.

(** X25: [isEnharmonic] is an equivalence on spelled notes: every note matches
    itself, a match does not depend on which of the two is the input and
    which the target, and two notes that match a third match each other. *)
Theorem isEnharmonic_equivalence (n1 n2 n3 : string) (a1 a2 a3 : option string) :
  isEnharmonic n1 a1 n1 a1 = true
  /\ isEnharmonic n1 a1 n2 a2 = isEnharmonic n2 a2 n1 a1
  /\ (isEnharmonic n1 a1 n2 a2 = true -> isEnharmonic n2 a2 n3 a3 = true ->
      isEnharmonic n1 a1 n3 a3 = true).
Proof.
  split; [|split].
  - apply isEnharmonic_true. by left.
  - destruct (isEnharmonic n1 a1 n2 a2) eqn:H12.
    + symmetry. apply isEnharmonic_true. apply isEnharmonic_true in H12.
      destruct H12 as [->|[?|?]]; auto.
    + symmetry. apply not_true_iff_false. intros H21.
      apply isEnharmonic_true in H21.
      apply not_true_iff_false in H12. apply H12, isEnharmonic_true.
      destruct H21 as [->|[?|?]]; auto.
  - rewrite !isEnharmonic_true.
    intros [->|[H12|H12]] [<-|[H23|H23]]; auto;
      apply enharmonic_map_Some in H12 as H12';
      apply enharmonic_map_Some in H23 as H23';
      rewrite !elem_of_cons, elem_of_nil in H12', H23';
      destruct H12' as [H|[H|[H|[H|[H|[]]]]]]; injection H as E1 E2;
      destruct H23' as [H|[H|[H|[H|[H|[]]]]]]; injection H as E3 E4;
      rewrite ?E1, ?E2, ?E3, ?E4 in *; try discriminate; auto;
      left; congruence.
Qed.

Lemma noteNames_detected (n : nat) :
  (n < 12)%nat ->
  spelled (detected_input (noteNames !!! n)).1 (detected_input (noteNames !!! n)).2
  = noteNames !!! n
  /\ forall j, enharmonic_map j <> Some (noteNames !!! n).
Proof.
  intros Hn.
  do 12 (destruct n as [|n];
         [split; [reflexivity|];
          intros j Hj%enharmonic_map_Some;
          rewrite !elem_of_cons, elem_of_nil in Hj;
          destruct Hj as [H|[H|[H|[H|[H|[]]]]]]; discriminate H|]).
  lia.
Qed.

(** X26: what the microphone hears is judged by its name: the callback's
    conversion of a detected note splits the name without losing anything,
    and [isEnharmonic] accepts the detected note exactly when the target is
    spelled the same or is the flat spelling of the detected sharp. *)
Theorem detected_note_accepted (f : Q) (nt : Note) (n2 : string)
    (a2 : option string) :
  PitchDetector.frequencyToNote f = Some nt ->
  spelled (detected_input (note nt)).1 (detected_input (note nt)).2 = note nt
  /\ (isEnharmonic (detected_input (note nt)).1 (detected_input (note nt)).2 n2 a2
      = true
      <-> spelled n2 a2 = note nt
          \/ enharmonic_map (note nt) = Some (spelled n2 a2)).
Proof.
  intros Hnt.
  assert (Hf : (0 < f)%Q).
  { apply Qnot_le_lt. intros Hle.
    by rewrite (frequencyToNote_nonpositive f Hle) in Hnt. }
  rewrite (frequencyToNote_shape f Hf) in Hnt. injection Hnt as <-.
  cbn [note].
  pose proof (Z.mod_pos_bound (57 + roundedSemitones f) 12 ltac:(lia)) as Hb.
  destruct (noteNames_detected (Z.to_nat ((57 + roundedSemitones f) mod 12))
              ltac:(lia)) as [Hsp Hflat].
  split; [exact Hsp|].
  rewrite isEnharmonic_true, Hsp. split.
  - intros [->|[?|?]]; [by left|by right|by destruct (Hflat (spelled n2 a2))].
  - intros [->|?]; [by left|right; by left].
Qed.

Lemma detected_note_accepted_witness :
  PitchDetector.frequencyToNote (660 # 3)
  = Some {| note := "A"; octave := 3; frequency := 660 # 3; accidental := None |}
  /\ spelled (detected_input "A").1 (detected_input "A").2 = "A"
  /\ (isEnharmonic (detected_input "A").1 (detected_input "A").2 "B" (Some "b") = true
      <-> spelled "B" (Some "b") = "A"
          \/ enharmonic_map "A" = Some (spelled "B" (Some "b"))).
Proof.
  assert (H : PitchDetector.frequencyToNote (660 # 3)
              = Some {| note := "A"; octave := 3; frequency := 660 # 3;
                        accidental := None |}).
  { rewrite frequencyToNote_shape by reflexivity.
    rewrite roundedSemitones_220. reflexivity. }
  split; [exact H|].
  exact (detected_note_accepted (660 # 3) _ "B" (Some "b") H).
Defined.
